(** * Quick input: the extension-host side of quick picks and input boxes

    A shallow embedding of [ExtHostQuickOpen] and of the session classes
    [ExtHostQuickInput], [ExtHostQuickPick] and [ExtHostInputBox]
    (src/vs/platform/quickinput/common/quickInput.ts, second part), with the
    properties of the update batcher, of disposal, of the handle tables and
    of the single-slot callbacks of the one-shot requests.

    JavaScript objects live in an explicit store, the event loop is a queue of
    pending zero-delay timers, and every call on the host proxy and every
    invocation of a caller's callback is appended to a log. *)

From stdpp Require Import base option list gmap strings fin_maps.

Open Scope string_scope.
Open Scope list_scope.

(** ** Values that travel to the host *)

(** Modelled from the spec: the [QuickInputCommand] type of the [vscode] API
    is not among the sources; the spec only speaks of "auxiliary command
    buttons", so a command is an icon with an optional tooltip. *)
Record QuickInputCommand := {
  iconPath : string;
  tooltip : option string
}.

(** [QuickPickItem] as the code reads it: [label], [description], [detail]
    and [picked]. [extra] stands for whatever other own properties the
    caller's object carries. *)
Record QuickPickItem := {
  label : string;
  description : option string;
  detail : option string;
  picked : option bool;
  extra : list (string * string)
}.

(** The object literal built for the host, [{ label, description, handle,
    detail, picked }]. *)
Record MyQuickPickItems := {
  t_label : string;
  t_description : option string;
  t_handle : nat;
  t_detail : option string;
  t_picked : option bool
}.

(** The values a property of a [TransferQuickInput] can hold. *)
Inductive Value :=
| VBool (b : bool)
| VNum (n : nat)
| VStr (s : string)
| VItems (items : list MyQuickPickItems)
| VCommands (commands : list QuickInputCommand).

(** [Record<string, any>] written as an object literal: keys in order. *)
Definition Properties := list (string * Value).

(** Modelled from the spec: [assign] of vs/base/common/objects is not among
    the sources. The pending-update buffer "merges repeated writes to the
    same field (last value wins)": every key of the source object is written
    into the destination. *)
Definition assign (destination : gmap string Value) (source : Properties)
  : gmap string Value :=
  foldl (λ d kv, <[kv.1 := kv.2]> d) destination source.

(** ** Event emitters *)

(** What listeners and callbacks of the caller get to see. *)
Inductive Item :=
| ItemString (s : string)
| ItemObject (q : QuickPickItem).

Inductive Callback :=
| DidHide (listener : nat)
| DidSelectionChange (listener : nat) (items : list (option QuickPickItem))
| DidSelectItem (callback : nat) (item : option Item)
| ValidateInput (validator : nat) (input : string).

(** Modelled from the spec: [Emitter] of vs/base/common/event is not among
    the sources. It is "an explicit publish/subscribe channel per event
    name, owned by the session, torn down on disposal": [Emitter_event]
    subscribes a listener, [Emitter_fire] calls every listener,
    [Emitter_dispose] drops the listeners and calls nobody. *)
Record Emitter := {
  listeners : list nat;
  emitter_disposed : bool
}.

Definition Emitter_new : Emitter :=
  {| listeners := []; emitter_disposed := false |}.

Definition Emitter_event (listener : nat) (e : Emitter) : Emitter :=
  if emitter_disposed e then e
  else {| listeners := listeners e ++ [listener]; emitter_disposed := false |}.

Definition Emitter_fire (mk : nat → Callback) (e : Emitter) : list Callback :=
  mk <$> listeners e.

Definition Emitter_dispose (e : Emitter) : Emitter :=
  {| listeners := []; emitter_disposed := true |}.

(** ** Session objects *)

(** A reference to a session object in the store. *)
Abbreviation ref := nat (only parsing).

(** The fields of [ExtHostQuickInput]. [_proxy] is the one host proxy, whose
    calls are logged in the world, and [_onDispose] is always the closure
    [() => this._sessions.delete(session._id)] of [createQuickPick] and
    [createInputBox]. *)
Record ExtHostQuickInput := {
  _id : nat;
  _extensionId : string;
  _visible : bool;
  _enabled : bool;
  _busy : bool;
  _onDidHideEmitter : Emitter;
  _updateTimeout : option nat;
  _pendingUpdate : gmap string Value;
  _disposed : bool
}.

Definition with_visible (v : bool) (q : ExtHostQuickInput) :=
  {| _id := _id q; _extensionId := _extensionId q; _visible := v;
     _enabled := _enabled q; _busy := _busy q;
     _onDidHideEmitter := _onDidHideEmitter q;
     _updateTimeout := _updateTimeout q; _pendingUpdate := _pendingUpdate q;
     _disposed := _disposed q |}.

Definition with_enabled (v : bool) (q : ExtHostQuickInput) :=
  {| _id := _id q; _extensionId := _extensionId q; _visible := _visible q;
     _enabled := v; _busy := _busy q;
     _onDidHideEmitter := _onDidHideEmitter q;
     _updateTimeout := _updateTimeout q; _pendingUpdate := _pendingUpdate q;
     _disposed := _disposed q |}.

Definition with_busy (v : bool) (q : ExtHostQuickInput) :=
  {| _id := _id q; _extensionId := _extensionId q; _visible := _visible q;
     _enabled := _enabled q; _busy := v;
     _onDidHideEmitter := _onDidHideEmitter q;
     _updateTimeout := _updateTimeout q; _pendingUpdate := _pendingUpdate q;
     _disposed := _disposed q |}.

Definition with_onDidHideEmitter (v : Emitter) (q : ExtHostQuickInput) :=
  {| _id := _id q; _extensionId := _extensionId q; _visible := _visible q;
     _enabled := _enabled q; _busy := _busy q;
     _onDidHideEmitter := v;
     _updateTimeout := _updateTimeout q; _pendingUpdate := _pendingUpdate q;
     _disposed := _disposed q |}.

Definition with_updateTimeout (v : option nat) (q : ExtHostQuickInput) :=
  {| _id := _id q; _extensionId := _extensionId q; _visible := _visible q;
     _enabled := _enabled q; _busy := _busy q;
     _onDidHideEmitter := _onDidHideEmitter q;
     _updateTimeout := v; _pendingUpdate := _pendingUpdate q;
     _disposed := _disposed q |}.

Definition with_pendingUpdate (v : gmap string Value) (q : ExtHostQuickInput) :=
  {| _id := _id q; _extensionId := _extensionId q; _visible := _visible q;
     _enabled := _enabled q; _busy := _busy q;
     _onDidHideEmitter := _onDidHideEmitter q;
     _updateTimeout := _updateTimeout q; _pendingUpdate := v;
     _disposed := _disposed q |}.

Definition with_disposed (v : bool) (q : ExtHostQuickInput) :=
  {| _id := _id q; _extensionId := _extensionId q; _visible := _visible q;
     _enabled := _enabled q; _busy := _busy q;
     _onDidHideEmitter := _onDidHideEmitter q;
     _updateTimeout := _updateTimeout q; _pendingUpdate := _pendingUpdate q;
     _disposed := v |}.

(** The fields [ExtHostQuickPick] adds. Of its emitters only the one the
    class fires, [_onDidSelectionChangeEmitter], is kept. *)
Module ExtHostQuickPick.
Record fields := {
  _value : string;
  _placeholder : option string;
  _commands : list QuickInputCommand;
  _items : list QuickPickItem;
  _handlesToItems : gmap nat QuickPickItem;
  _canSelectMany : bool;
  _builtInFilter : bool;
  _focusedItems : list QuickPickItem;
  _selectedItems : list QuickPickItem;
  _onDidSelectionChangeEmitter : Emitter
}.

Definition init : fields :=
  {| _value := ""; _placeholder := None; _commands := []; _items := [];
     _handlesToItems := ∅; _canSelectMany := false; _builtInFilter := true;
     _focusedItems := []; _selectedItems := [];
     _onDidSelectionChangeEmitter := Emitter_new |}.

Definition with_value v f :=
  {| _value := v; _placeholder := _placeholder f; _commands := _commands f;
     _items := _items f; _handlesToItems := _handlesToItems f;
     _canSelectMany := _canSelectMany f; _builtInFilter := _builtInFilter f;
     _focusedItems := _focusedItems f; _selectedItems := _selectedItems f;
     _onDidSelectionChangeEmitter := _onDidSelectionChangeEmitter f |}.

Definition with_placeholder v f :=
  {| _value := _value f; _placeholder := v; _commands := _commands f;
     _items := _items f; _handlesToItems := _handlesToItems f;
     _canSelectMany := _canSelectMany f; _builtInFilter := _builtInFilter f;
     _focusedItems := _focusedItems f; _selectedItems := _selectedItems f;
     _onDidSelectionChangeEmitter := _onDidSelectionChangeEmitter f |}.

Definition with_commands v f :=
  {| _value := _value f; _placeholder := _placeholder f; _commands := v;
     _items := _items f; _handlesToItems := _handlesToItems f;
     _canSelectMany := _canSelectMany f; _builtInFilter := _builtInFilter f;
     _focusedItems := _focusedItems f; _selectedItems := _selectedItems f;
     _onDidSelectionChangeEmitter := _onDidSelectionChangeEmitter f |}.

Definition with_items v h f :=
  {| _value := _value f; _placeholder := _placeholder f;
     _commands := _commands f;
     _items := v; _handlesToItems := h;
     _canSelectMany := _canSelectMany f; _builtInFilter := _builtInFilter f;
     _focusedItems := _focusedItems f; _selectedItems := _selectedItems f;
     _onDidSelectionChangeEmitter := _onDidSelectionChangeEmitter f |}.

Definition with_canSelectMany v f :=
  {| _value := _value f; _placeholder := _placeholder f;
     _commands := _commands f;
     _items := _items f; _handlesToItems := _handlesToItems f;
     _canSelectMany := v; _builtInFilter := _builtInFilter f;
     _focusedItems := _focusedItems f; _selectedItems := _selectedItems f;
     _onDidSelectionChangeEmitter := _onDidSelectionChangeEmitter f |}.

Definition with_builtInFilter v f :=
  {| _value := _value f; _placeholder := _placeholder f;
     _commands := _commands f;
     _items := _items f; _handlesToItems := _handlesToItems f;
     _canSelectMany := _canSelectMany f; _builtInFilter := v;
     _focusedItems := _focusedItems f; _selectedItems := _selectedItems f;
     _onDidSelectionChangeEmitter := _onDidSelectionChangeEmitter f |}.

Definition with_onDidSelectionChangeEmitter v f :=
  {| _value := _value f; _placeholder := _placeholder f;
     _commands := _commands f;
     _items := _items f; _handlesToItems := _handlesToItems f;
     _canSelectMany := _canSelectMany f; _builtInFilter := _builtInFilter f;
     _focusedItems := _focusedItems f; _selectedItems := _selectedItems f;
     _onDidSelectionChangeEmitter := v |}.
End ExtHostQuickPick.

(** The fields [ExtHostInputBox] adds; none of its emitters is ever fired
    or disposed by the class. *)
Module ExtHostInputBox.
Record fields := {
  _value : string;
  _placeholder : option string;
  _password : option bool;
  _prompt : option string;
  _validationMessage : option string;
  _commands : list QuickInputCommand
}.

Definition init : fields :=
  {| _value := ""; _placeholder := None; _password := None;
     _prompt := None; _validationMessage := None; _commands := [] |}.

Definition with_value v f :=
  {| _value := v; _placeholder := _placeholder f; _password := _password f;
     _prompt := _prompt f; _validationMessage := _validationMessage f;
     _commands := _commands f |}.

Definition with_placeholder v f :=
  {| _value := _value f; _placeholder := v; _password := _password f;
     _prompt := _prompt f; _validationMessage := _validationMessage f;
     _commands := _commands f |}.

Definition with_password v f :=
  {| _value := _value f; _placeholder := _placeholder f; _password := v;
     _prompt := _prompt f; _validationMessage := _validationMessage f;
     _commands := _commands f |}.

Definition with_prompt v f :=
  {| _value := _value f; _placeholder := _placeholder f;
     _password := _password f;
     _prompt := v; _validationMessage := _validationMessage f;
     _commands := _commands f |}.

Definition with_validationMessage v f :=
  {| _value := _value f; _placeholder := _placeholder f;
     _password := _password f;
     _prompt := _prompt f; _validationMessage := v;
     _commands := _commands f |}.

Definition with_commands v f :=
  {| _value := _value f; _placeholder := _placeholder f;
     _password := _password f;
     _prompt := _prompt f; _validationMessage := _validationMessage f;
     _commands := v |}.
End ExtHostInputBox.

(** An object of one of the two concrete classes: the inherited part and the
    part of the subclass. *)
Inductive Subclass :=
| QuickPickFields (f : ExtHostQuickPick.fields)
| InputBoxFields (f : ExtHostInputBox.fields).

Record Session := {
  super : ExtHostQuickInput;
  sub : Subclass
}.

Definition map_super (f : ExtHostQuickInput → ExtHostQuickInput) (s : Session)
  : Session :=
  {| super := f (super s); sub := sub s |}.

Definition map_quickPick (f : ExtHostQuickPick.fields → ExtHostQuickPick.fields)
    (s : Session) : Session :=
  match sub s with
  | QuickPickFields q => {| super := super s; sub := QuickPickFields (f q) |}
  | InputBoxFields _ => s
  end.

Definition map_inputBox (f : ExtHostInputBox.fields → ExtHostInputBox.fields)
    (s : Session) : Session :=
  match sub s with
  | InputBoxFields i => {| super := super s; sub := InputBoxFields (f i) |}
  | QuickPickFields _ => s
  end.

(** ** One-shot requests: options, promises, callbacks *)

(** How a promise settles. *)
Inductive Settled (A : Type) :=
| Fulfilled (v : A)
| Rejected (err : string).
Arguments Fulfilled {A} v.
Arguments Rejected {A} err.

(** [QuickPickOptions] of the [vscode] API, as [showQuickPick] reads them;
    the caller's [onDidSelectItem] function is known by a number. *)
Module QuickPickOptions.
Record t := {
  placeHolder : option string;
  matchOnDescription : option bool;
  matchOnDetail : option bool;
  ignoreFocusOut : option bool;
  canPickMany : option bool;
  onDidSelectItem : option nat
}.
End QuickPickOptions.

(** The object literal handed to [$show]. *)
Record ShowOptions := {
  show_placeHolder : option string;
  show_matchOnDescription : option bool;
  show_matchOnDetail : option bool;
  show_ignoreFocusLost : option bool;
  show_canPickMany : option bool
}.

(** A caller's validation function: a number to tell validators apart and
    what the function answers. *)
Record Validator := {
  validator_id : nat;
  validate : string → Settled (option string)
}.

Module InputBoxOptions.
Record t := {
  value : option string;
  prompt : option string;
  placeHolder : option string;
  password : option bool;
  ignoreFocusOut : option bool;
  validateInput : option Validator
}.
End InputBoxOptions.

(** The closure [(handle) => options.onDidSelectItem(items[handle])]: the
    callback and the item list it captured. *)
Record SelectHandler := {
  handler_callback : nat;
  handler_items : list Item
}.

(** Calls on [this._proxy], the host side. *)
Inductive ProxyCall :=
| PShow (options : ShowOptions)
| PSetItems (items : list MyQuickPickItems)
| PSetError (err : string)
| PInput (options : option InputBoxOptions.t) (hasValidator : bool)
| PCreateOrUpdate (params : gmap string Value)
| PDispose (id : nat).

(** ** The world *)

(** One [ExtHostQuickOpen] instance ([_onDidSelectItem], [_validateInput],
    [_sessions]), the static counter [_nextId], the store of session
    objects, the timers set with [setTimeout] and not yet fired or cleared
    (oldest first, each with the session whose flush it runs), and the logs:
    [proxy] for calls on the host proxy, [callbacks] for calls of listeners
    and callbacks of the caller, [onDispose] for runs of the [_onDispose]
    closure. *)
Record World := {
  _onDidSelectItem : option SelectHandler;
  _validateInput : option Validator;
  _sessions : gmap nat ref;
  _nextId : nat;
  heap : gmap ref Session;
  timers : list (nat * ref);
  next_timer : nat;
  proxy : list ProxyCall;
  callbacks : list Callback;
  onDispose : list nat
}.

Definition initial : World :=
  {| _onDidSelectItem := None; _validateInput := None; _sessions := ∅;
     _nextId := 1; heap := ∅; timers := []; next_timer := 1;
     proxy := []; callbacks := []; onDispose := [] |}.

Definition with_onDidSelectItem v (w : World) : World :=
  {| _onDidSelectItem := v; _validateInput := _validateInput w;
     _sessions := _sessions w; _nextId := _nextId w; heap := heap w;
     timers := timers w; next_timer := next_timer w; proxy := proxy w;
     callbacks := callbacks w; onDispose := onDispose w |}.

Definition with_validateInput v (w : World) : World :=
  {| _onDidSelectItem := _onDidSelectItem w; _validateInput := v;
     _sessions := _sessions w; _nextId := _nextId w; heap := heap w;
     timers := timers w; next_timer := next_timer w; proxy := proxy w;
     callbacks := callbacks w; onDispose := onDispose w |}.

Definition with_sessions v (w : World) : World :=
  {| _onDidSelectItem := _onDidSelectItem w;
     _validateInput := _validateInput w;
     _sessions := v; _nextId := _nextId w; heap := heap w;
     timers := timers w; next_timer := next_timer w; proxy := proxy w;
     callbacks := callbacks w; onDispose := onDispose w |}.

Definition with_nextId v (w : World) : World :=
  {| _onDidSelectItem := _onDidSelectItem w;
     _validateInput := _validateInput w;
     _sessions := _sessions w; _nextId := v; heap := heap w;
     timers := timers w; next_timer := next_timer w; proxy := proxy w;
     callbacks := callbacks w; onDispose := onDispose w |}.

Definition with_heap v (w : World) : World :=
  {| _onDidSelectItem := _onDidSelectItem w;
     _validateInput := _validateInput w;
     _sessions := _sessions w; _nextId := _nextId w; heap := v;
     timers := timers w; next_timer := next_timer w; proxy := proxy w;
     callbacks := callbacks w; onDispose := onDispose w |}.

Definition with_timers v n (w : World) : World :=
  {| _onDidSelectItem := _onDidSelectItem w;
     _validateInput := _validateInput w;
     _sessions := _sessions w; _nextId := _nextId w; heap := heap w;
     timers := v; next_timer := n; proxy := proxy w;
     callbacks := callbacks w; onDispose := onDispose w |}.

Definition with_proxy v (w : World) : World :=
  {| _onDidSelectItem := _onDidSelectItem w;
     _validateInput := _validateInput w;
     _sessions := _sessions w; _nextId := _nextId w; heap := heap w;
     timers := timers w; next_timer := next_timer w; proxy := v;
     callbacks := callbacks w; onDispose := onDispose w |}.

Definition with_callbacks v (w : World) : World :=
  {| _onDidSelectItem := _onDidSelectItem w;
     _validateInput := _validateInput w;
     _sessions := _sessions w; _nextId := _nextId w; heap := heap w;
     timers := timers w; next_timer := next_timer w; proxy := proxy w;
     callbacks := v; onDispose := onDispose w |}.

Definition with_onDispose v (w : World) : World :=
  {| _onDidSelectItem := _onDidSelectItem w;
     _validateInput := _validateInput w;
     _sessions := _sessions w; _nextId := _nextId w; heap := heap w;
     timers := timers w; next_timer := next_timer w; proxy := proxy w;
     callbacks := callbacks w; onDispose := v |}.

(** A call on the proxy, a call of a listener. *)
Definition call_proxy (c : ProxyCall) (w : World) : World :=
  with_proxy (proxy w ++ [c]) w.

Definition call_back (cs : list Callback) (w : World) : World :=
  with_callbacks (callbacks w ++ cs) w.

(** Writing an object back, and changing the object behind a reference. *)
Definition store (this : ref) (s : Session) (w : World) : World :=
  with_heap (<[this := s]> (heap w)) w.

Definition modify (this : ref) (f : Session → Session) (w : World) : World :=
  with_heap (alter f this (heap w)) w.

(** ** Timers *)

(** [clearTimeout(id)]: the timer with that id, if still pending, is
    dropped; [undefined] and ids of fired timers do nothing. *)
Definition clearTimeout (id : option nat) (w : World) : World :=
  match id with
  | Some t => with_timers (filter (λ e, e.1 ≠ t) (timers w)) (next_timer w) w
  | None => w
  end.

(** [setTimeout(() => ..., 0)] for the flush of [this]: a fresh id. *)
Definition setTimeout (this : ref) (w : World) : nat * World :=
  (next_timer w,
   with_timers (timers w ++ [(next_timer w, this)]) (S (next_timer w)) w).

(** ** [ExtHostQuickInput] *)

(** [update(properties)]. *)
Definition update (this : ref) (properties : Properties) (w : World) : World :=
  match heap w !! this with
  | None => w
  | Some s =>
    if _disposed (super s) then w
    else
      let s :=
        map_super
          (with_pendingUpdate (assign (_pendingUpdate (super s)) properties)) s in
      if negb (_visible (super s)) then store this s w
      else
        let w := clearTimeout (_updateTimeout (super s)) w in
        let '(t, w) := setTimeout this w in
        store this (map_super (with_updateTimeout (Some t)) s) w
  end.

(** The callback given to [setTimeout] in [update]. *)
Definition flush (this : ref) (w : World) : World :=
  match heap w !! this with
  | None => w
  | Some s =>
    if _disposed (super s) then w
    else
      let w := call_proxy (PCreateOrUpdate (_pendingUpdate (super s))) w in
      store this
        (map_super (with_pendingUpdate {[ "id" := VNum (_id (super s)) ]}) s) w
  end.

(** The end of a scheduling turn: the pending zero-delay timers fire, oldest
    first. A flush sets and clears no timer, so the queue is emptied. *)
Definition run_timers (w : World) : World :=
  foldl (λ w e, flush e.2 w) (with_timers [] (next_timer w) w) (timers w).

(** One pending timer fires, the oldest: a single macrotask of the event
    loop. *)
Definition fire_timer (w : World) : World :=
  match timers w with
  | [] => w
  | e :: l => flush e.2 (with_timers l (next_timer w) w)
  end.

Definition get_enabled (this : ref) (w : World) : option bool :=
  (λ s, _enabled (super s)) <$> heap w !! this.

Definition set_enabled (enabled : bool) (this : ref) (w : World) : World :=
  let w := modify this (map_super (with_enabled enabled)) w in
  update this [("enabled", VBool enabled)] w.

Definition get_busy (this : ref) (w : World) : option bool :=
  (λ s, _busy (super s)) <$> heap w !! this.

Definition set_busy (busy : bool) (this : ref) (w : World) : World :=
  let w := modify this (map_super (with_busy busy)) w in
  update this [("busy", VBool busy)] w.

Definition show (this : ref) (w : World) : World :=
  let w := modify this (map_super (with_visible true)) w in
  update this [("visible", VBool true)] w.

Definition hide (this : ref) (w : World) : World :=
  let w := modify this (map_super (with_visible false)) w in
  update this [("visible", VBool false)] w.

(** [onDidHide(listener)]. *)
Definition onDidHide (listener : nat) (this : ref) (w : World) : World :=
  modify this
    (map_super (λ q,
       with_onDidHideEmitter (Emitter_event listener (_onDidHideEmitter q)) q))
    w.

(** [dispose()]; [_onDispose] deletes the session from [_sessions]. *)
Definition dispose (this : ref) (w : World) : World :=
  match heap w !! this with
  | None => w
  | Some s =>
    if _disposed (super s) then w
    else
      let s := map_super (with_disposed true) s in
      let s :=
        map_super
          (with_onDidHideEmitter
             (Emitter_dispose (_onDidHideEmitter (super s)))) s in
      let w := store this s w in
      let w := clearTimeout (_updateTimeout (super s)) w in
      let w :=
        with_onDispose (onDispose w ++ [_id (super s)])
          (with_sessions (delete (_id (super s)) (_sessions w)) w) in
      call_proxy (PDispose (_id (super s))) w
  end.


(** The object a [new] of either class builds, before it is registered. *)
Definition new_session (id : nat) (extensionId : string) (sub : Subclass)
  : Session :=
  {| super :=
       {| _id := id; _extensionId := extensionId; _visible := false;
          _enabled := true; _busy := false;
          _onDidHideEmitter := Emitter_new; _updateTimeout := None;
          _pendingUpdate := {[ "id" := VNum id ]}; _disposed := false |};
     sub := sub |}.

(** [_id = ExtHostQuickPick._nextId++]: the object is stored under its id,
    which no other object has. *)
Definition construct (extensionId : string) (sub : Subclass) (w : World)
  : ref * World :=
  let id := _nextId w in
  (id, store id (new_session id extensionId sub) (with_nextId (S id) w)).

(** ** [ExtHostQuickPick] *)

(** The view of the items built for the host:
    [items.map((item, i) => ({ label, description, handle: i, detail, picked }))]. *)
Definition transfer_item (i : nat) (item : QuickPickItem) : MyQuickPickItems :=
  {| t_label := label item; t_description := description item; t_handle := i;
     t_detail := detail item; t_picked := picked item |}.

Definition get_items (this : ref) (w : World) : option (list QuickPickItem) :=
  s ← heap w !! this;
  match sub s with
  | QuickPickFields q => Some (ExtHostQuickPick._items q)
  | InputBoxFields _ => None
  end.

Definition get_handlesToItems (this : ref) (w : World)
  : option (gmap nat QuickPickItem) :=
  s ← heap w !! this;
  match sub s with
  | QuickPickFields q => Some (ExtHostQuickPick._handlesToItems q)
  | InputBoxFields _ => None
  end.

Module QuickPick.
Import ExtHostQuickPick.

Definition set_value (value : string) (this : ref) (w : World) : World :=
  let w := modify this (map_quickPick (with_value value)) w in
  update this [("value", VStr value)] w.

Definition set_placeholder (placeholder : string) (this : ref) (w : World)
  : World :=
  let w := modify this (map_quickPick (with_placeholder (Some placeholder))) w in
  update this [("placeholder", VStr placeholder)] w.

Definition set_commands (commands : list QuickInputCommand) (this : ref)
    (w : World) : World :=
  let w := modify this (map_quickPick (with_commands commands)) w in
  update this [("commands", VCommands commands)] w.

(** [_handlesToItems.clear()] and then [set(i, item)] for every index:
    the table is [map_seq 0 items]. *)
Definition set_items (items : list QuickPickItem) (this : ref) (w : World)
  : World :=
  let w := modify this (map_quickPick (with_items items (map_seq 0 items))) w in
  update this [("items", VItems (imap transfer_item items))] w.

Definition set_canSelectMany (canSelectMany : bool) (this : ref) (w : World)
  : World :=
  let w := modify this (map_quickPick (with_canSelectMany canSelectMany)) w in
  update this [("canSelectMany", VBool canSelectMany)] w.

Definition set_builtInFilter (builtInFilter : bool) (this : ref) (w : World)
  : World :=
  let w := modify this (map_quickPick (with_builtInFilter builtInFilter)) w in
  update this [("builtInFilter", VBool builtInFilter)] w.

(** [onDidSelectionChange(listener)]. *)
Definition onDidSelectionChange (listener : nat) (this : ref) (w : World)
  : World :=
  modify this
    (map_quickPick (λ q,
       with_onDidSelectionChangeEmitter
         (Emitter_event listener (_onDidSelectionChangeEmitter q)) q))
    w.

(** [_fireDidSelectionChange(handles)]; a handle the table does not know
    gives [undefined], here [None]. *)
Definition _fireDidSelectionChange (handles : list nat) (q : fields)
    (w : World) : World :=
  let items := (λ handle, _handlesToItems q !! handle) <$> handles in
  call_back
    (Emitter_fire (λ l, DidSelectionChange l items)
       (_onDidSelectionChangeEmitter q)) w.

End QuickPick.

(** ** [ExtHostInputBox] *)

Module InputBox.
Import ExtHostInputBox.

Definition set_value (value : string) (this : ref) (w : World) : World :=
  let w := modify this (map_inputBox (with_value value)) w in
  update this [("value", VStr value)] w.

Definition set_placeholder (placeholder : string) (this : ref) (w : World)
  : World :=
  let w := modify this (map_inputBox (with_placeholder (Some placeholder))) w in
  update this [("placeholder", VStr placeholder)] w.

Definition set_password (password : bool) (this : ref) (w : World) : World :=
  let w := modify this (map_inputBox (with_password (Some password))) w in
  update this [("password", VBool password)] w.

Definition set_prompt (prompt : string) (this : ref) (w : World) : World :=
  let w := modify this (map_inputBox (with_prompt (Some prompt))) w in
  update this [("prompt", VStr prompt)] w.

Definition set_validationMessage (validationMessage : string) (this : ref)
    (w : World) : World :=
  let w :=
    modify this
      (map_inputBox (with_validationMessage (Some validationMessage))) w in
  update this [("validationMessage", VStr validationMessage)] w.

Definition set_commands (commands : list QuickInputCommand) (this : ref)
    (w : World) : World :=
  let w := modify this (map_inputBox (with_commands commands)) w in
  update this [("commands", VCommands commands)] w.

End InputBox.

(** ** [ExtHostQuickOpen] *)

Definition createQuickPick (extensionId : string) (w : World) : ref * World :=
  let '(session, w) :=
    construct extensionId (QuickPickFields ExtHostQuickPick.init) w in
  (session, with_sessions (<[session := session]> (_sessions w)) w).

Definition createInputBox (extensionId : string) (w : World) : ref * World :=
  let '(session, w) :=
    construct extensionId (InputBoxFields ExtHostInputBox.init) w in
  (session, with_sessions (<[session := session]> (_sessions w)) w).

(** [$onDidSelectItems(sessionId, handles)]. *)
Definition rpc_onDidSelectItems (sessionId : nat) (handles : list nat)
    (w : World) : World :=
  match _sessions w !! sessionId with
  | None => w
  | Some session =>
    match heap w !! session with
    | None => w
    | Some s =>
      match sub s with
      | QuickPickFields q => QuickPick._fireDidSelectionChange handles q w
      | InputBoxFields _ => w
      end
    end
  end.

(** *** [showQuickPick] *)

(** What the promise of [$show] resolves to: a handle, a list of handles,
    or anything else (the picker was dismissed). *)
Inductive WidgetResult :=
| HandleNumber (handle : nat)
| HandleArray (handles : list nat)
| HandleOther.

(** What [showQuickPick] resolves to. [items[handle]] is [undefined] when
    the handle is out of range. *)
Inductive PickResult :=
| PickItem (item : Item)
| PickItems (items : list (option Item))
| PickUndefined.

(** The synchronous part of [showQuickPick]: "clear state from last
    invocation", then [$show]. *)
Definition showQuickPick (options : option QuickPickOptions.t) (w : World)
  : World :=
  let w := with_onDidSelectItem None w in
  call_proxy
    (PShow
       {| show_placeHolder := options ≫= QuickPickOptions.placeHolder;
          show_matchOnDescription :=
            options ≫= QuickPickOptions.matchOnDescription;
          show_matchOnDetail := options ≫= QuickPickOptions.matchOnDetail;
          show_ignoreFocusLost := options ≫= QuickPickOptions.ignoreFocusOut;
          show_canPickMany := options ≫= QuickPickOptions.canPickMany |})
    w.

(** The loop that builds [pickItems]. *)
Definition pickItems (items : list Item) : list MyQuickPickItems :=
  imap
    (λ handle item,
       match item with
       | ItemString s =>
         {| t_label := s; t_description := None; t_handle := handle;
            t_detail := None; t_picked := None |}
       | ItemObject q => transfer_item handle q
       end)
    items.

(** The callback [values => ...] given to [TPromise.any(...).then] in
    [showQuickPick], for the call made with [options]. [TPromise] (of
    vs/base/common/winjs.base) is not among the sources: the callback is
    taken as a function of the [key] it finds in [values], of how
    [itemsPromise] settles and of how [quickPickWidget] settles; it answers
    with what the promise chain settles to. *)
Definition showQuickPick_then (options : option QuickPickOptions.t)
    (key : string) (itemsPromise : Settled (list Item))
    (quickPickWidget : Settled WidgetResult) (w : World)
  : Settled PickResult * World :=
  if String.eqb key "0" then (Fulfilled PickUndefined, w)
  else
    match itemsPromise with
    | Fulfilled items =>
      let w :=
        match options ≫= QuickPickOptions.onDidSelectItem with
        | Some callback =>
          with_onDidSelectItem
            (Some {| handler_callback := callback; handler_items := items |}) w
        | None => w
        end in
      let w := call_proxy (PSetItems (pickItems items)) w in
      (match quickPickWidget with
       | Fulfilled (HandleNumber handle) =>
         Fulfilled (from_option PickItem PickUndefined (items !! handle))
       | Fulfilled (HandleArray handle) =>
         Fulfilled (PickItems ((λ h, items !! h) <$> handle))
       | Fulfilled HandleOther => Fulfilled PickUndefined
       | Rejected err => Rejected err
       end, w)
    | Rejected err =>
      let w := call_proxy (PSetError err) w in
      (Rejected err, w)
    end.

(** Modelled from the spec: [wireCancellationToken] of vs/base/common/async
    is not among the sources. "A supplied cancellation signal must cause the
    returned result to resolve to 'cancelled' even if the host has not yet
    responded": when the token fires before the promise settles the caller
    gets [undefined], otherwise what the promise settles to. *)
Definition wireCancellationToken (cancelled : bool)
    (promise : Settled PickResult) : Settled PickResult :=
  if cancelled then Fulfilled PickUndefined else promise.

(** How [TPromise.any([quickPickWidget, itemsPromise])] settles: fulfilled
    with an object whose [key] names an input, or rejected. [TPromise] is
    not among the sources, so the settlement of the race is an input of the
    chain below and nothing is assumed of which settlements occur. *)
Inductive AnyOutcome :=
| AnyFulfilled (key : string)
| AnyRejected (key : string).

(** What the promise built by [showQuickPick] settles to: a result, a
    rejection with the error of the item list or of the host, or the
    rejection of the race itself. *)
Inductive PickOutcome :=
| PickFulfilled (result : PickResult)
| PickRejected (err : string)
| PickRejectedByAny (key : string).

(** [TPromise.any(...).then(values => ...)]: [then] is given the one
    callback, so the callback runs when the race is fulfilled and its
    outcome is the outcome of the chain; when the race is rejected the
    callback does not run and the chain is rejected with the rejection of
    the race. *)
Definition showQuickPick_promise (options : option QuickPickOptions.t)
    (any : AnyOutcome) (itemsPromise : Settled (list Item))
    (quickPickWidget : Settled WidgetResult) (w : World)
  : PickOutcome * World :=
  match any with
  | AnyFulfilled key =>
    let '(outcome, w) :=
      showQuickPick_then options key itemsPromise quickPickWidget w in
    (match outcome with
     | Fulfilled result => PickFulfilled result
     | Rejected err => PickRejected err
     end, w)
  | AnyRejected key => (PickRejectedByAny key, w)
  end.

(** [$onItemSelected(handle)]. *)
Definition rpc_onItemSelected (handle : nat) (w : World) : World :=
  match _onDidSelectItem w with
  | Some h =>
    call_back [DidSelectItem (handler_callback h) (handler_items h !! handle)] w
  | None => w
  end.

(** *** [showInput] *)

Definition showInput (options : option InputBoxOptions.t) (w : World) : World :=
  let w := with_validateInput (options ≫= InputBoxOptions.validateInput) w in
  call_proxy (PInput options (bool_decide (is_Some (_validateInput w)))) w.

(** [$validateInput(input)]: the promise of the validator's answer, or
    [undefined] ([None]) when the slot is empty. *)
Definition rpc_validateInput (input : string) (w : World)
  : option (Settled (option string)) * World :=
  match _validateInput w with
  | Some v =>
    (Some (validate v input),
     call_back [ValidateInput (validator_id v) input] w)
  | None => (None, w)
  end.

(** ** Setter calls and histories *)

(** A call of a property setter with its argument. *)
Inductive Setter :=
| SetEnabled (enabled : bool)
| SetBusy (busy : bool)
| SetValue (value : string)
| SetPlaceholder (placeholder : string)
| SetCommands (commands : list QuickInputCommand)
| SetItems (items : list QuickPickItem)
| SetCanSelectMany (canSelectMany : bool)
| SetBuiltInFilter (builtInFilter : bool)
| SetPassword (password : bool)
| SetPrompt (prompt : string)
| SetValidationMessage (validationMessage : string).

(** Whether the class of the object declares the setter. *)
Definition has_setter (c : Subclass) (p : Setter) : bool :=
  match p, c with
  | (SetEnabled _ | SetBusy _ | SetValue _ | SetPlaceholder _
    | SetCommands _), _ => true
  | (SetItems _ | SetCanSelectMany _ | SetBuiltInFilter _),
    QuickPickFields _ => true
  | (SetPassword _ | SetPrompt _ | SetValidationMessage _),
    InputBoxFields _ => true
  | _, _ => false
  end.

(** The property a setter stages, as it names it in [this.update({ ... })]. *)
Definition staged (p : Setter) : string * Value :=
  match p with
  | SetEnabled b => ("enabled", VBool b)
  | SetBusy b => ("busy", VBool b)
  | SetValue v => ("value", VStr v)
  | SetPlaceholder v => ("placeholder", VStr v)
  | SetCommands c => ("commands", VCommands c)
  | SetItems items => ("items", VItems (imap transfer_item items))
  | SetCanSelectMany b => ("canSelectMany", VBool b)
  | SetBuiltInFilter b => ("builtInFilter", VBool b)
  | SetPassword b => ("password", VBool b)
  | SetPrompt v => ("prompt", VStr v)
  | SetValidationMessage v => ("validationMessage", VStr v)
  end.

(** The assignment [session.p = v]: the setter of the object's class runs;
    a property the class has no setter for is not an assignment the types
    allow, and nothing runs. *)
Definition call_setter (p : Setter) (this : ref) (w : World) : World :=
  match heap w !! this with
  | None => w
  | Some s =>
    match p, sub s with
    | SetEnabled b, _ => set_enabled b this w
    | SetBusy b, _ => set_busy b this w
    | SetValue v, QuickPickFields _ => QuickPick.set_value v this w
    | SetValue v, InputBoxFields _ => InputBox.set_value v this w
    | SetPlaceholder v, QuickPickFields _ => QuickPick.set_placeholder v this w
    | SetPlaceholder v, InputBoxFields _ => InputBox.set_placeholder v this w
    | SetCommands c, QuickPickFields _ => QuickPick.set_commands c this w
    | SetCommands c, InputBoxFields _ => InputBox.set_commands c this w
    | SetItems items, QuickPickFields _ => QuickPick.set_items items this w
    | SetCanSelectMany b, QuickPickFields _ =>
      QuickPick.set_canSelectMany b this w
    | SetBuiltInFilter b, QuickPickFields _ =>
      QuickPick.set_builtInFilter b this w
    | SetPassword b, InputBoxFields _ => InputBox.set_password b this w
    | SetPrompt v, InputBoxFields _ => InputBox.set_prompt v this w
    | SetValidationMessage v, InputBoxFields _ =>
      InputBox.set_validationMessage v this w
    | _, _ => w
    end
  end.

(** Setter calls one after the other, within one turn. *)
Definition call_setters (ps : list Setter) (this : ref) (w : World) : World :=
  foldl (λ w p, call_setter p this w) w ps.

(** What the extension and the host can do, one step at a time. [Turn] is
    the end of a scheduling turn, [Fire] the firing of one timer. [PickThen]
    runs the continuation of a [showQuickPick] call made with the given
    options. *)
Inductive Op :=
| CreateQuickPick (extensionId : string)
| CreateInputBox (extensionId : string)
| Set_ (this : ref) (p : Setter)
| Show (this : ref)
| Hide (this : ref)
| Dispose (this : ref)
| OnDidHide (this : ref) (listener : nat)
| OnDidSelectionChange (this : ref) (listener : nat)
| Turn
| HostDidSelectItems (sessionId : nat) (handles : list nat)
| ShowQuickPick (options : option QuickPickOptions.t)
| PickThen (options : option QuickPickOptions.t) (key : string)
    (itemsPromise : Settled (list Item)) (quickPickWidget : Settled WidgetResult)
| HostItemSelected (handle : nat)
| ShowInput (options : option InputBoxOptions.t)
| HostValidateInput (input : string)
| Fire.

Definition step (o : Op) (w : World) : World :=
  match o with
  | CreateQuickPick e => (createQuickPick e w).2
  | CreateInputBox e => (createInputBox e w).2
  | Set_ this p => call_setter p this w
  | Show this => show this w
  | Hide this => hide this w
  | Dispose this => dispose this w
  | OnDidHide this l => onDidHide l this w
  | OnDidSelectionChange this l => QuickPick.onDidSelectionChange l this w
  | Turn => run_timers w
  | HostDidSelectItems i hs => rpc_onDidSelectItems i hs w
  | ShowQuickPick o => showQuickPick o w
  | PickThen o k i q => (showQuickPick_then o k i q w).2
  | HostItemSelected h => rpc_onItemSelected h w
  | ShowInput o => showInput o w
  | HostValidateInput i => (rpc_validateInput i w).2
  | Fire => fire_timer w
  end.

Definition run (ops : list Op) (w : World) : World :=
  foldl (λ w o, step o w) w ops.

(** The [$createOrUpdate] messages of one session in a log of proxy calls. *)
Definition update_id (c : ProxyCall) : option nat :=
  match c with
  | PCreateOrUpdate m =>
    match m !! "id" with
    | Some (VNum i) => Some i
    | _ => None
    end
  | _ => None
  end.

Definition updates_for (id : nat) (log : list ProxyCall) : list ProxyCall :=
  filter (λ c, update_id c = Some id) log.

(** ** Vocabulary of the statements *)

(** What every world reached from [initial] satisfies: an object is stored
    under its id, ids handed out are below [_nextId], the buffer of a
    session names the session; a pending timer is the one its session
    remembers in [_updateTimeout], and the session is not disposed; the
    registry holds exactly the sessions that are not disposed. *)
Record wf (w : World) : Prop := {
  wf_id : ∀ r s, heap w !! r = Some s →
    _id (super s) = r ∧ r < _nextId w ∧
    _pendingUpdate (super s) !! "id" = Some (VNum r);
  wf_timers : ∀ t r, (t, r) ∈ timers w →
    t < next_timer w ∧
    ∃ s, heap w !! r = Some s ∧ _updateTimeout (super s) = Some t ∧
         _disposed (super s) = false;
  wf_sessions : ∀ r s, heap w !! r = Some s →
    _sessions w !! r = if _disposed (super s) then None else Some r
}.

(** A change of an object that leaves alone what [wf] looks at. *)
Definition same_core (s s' : Session) : Prop :=
  _id (super s') = _id (super s) ∧
  _updateTimeout (super s') = _updateTimeout (super s) ∧
  _pendingUpdate (super s') !! "id" = _pendingUpdate (super s) !! "id" ∧
  _disposed (super s') = _disposed (super s).

(** The timers [clearTimeout] leaves. *)
Definition cleared (id : option nat) (l : list (nat * ref)) : list (nat * ref) :=
  match id with
  | Some t => filter (λ e, e.1 ≠ t) l
  | None => l
  end.

(** [dispose] on a session that is not yet disposed. *)
Definition disposed_session (s : Session) : Session :=
  map_super
    (λ q, with_onDidHideEmitter (Emitter_dispose (_onDidHideEmitter q))
            (with_disposed true q)) s.

(** The first half of a setter: the assignment to the field of the object. *)
Definition set_local (p : Setter) (s : Session) : Session :=
  match p, sub s with
  | SetEnabled b, _ => map_super (with_enabled b) s
  | SetBusy b, _ => map_super (with_busy b) s
  | SetValue v, QuickPickFields _ =>
    map_quickPick (ExtHostQuickPick.with_value v) s
  | SetValue v, InputBoxFields _ =>
    map_inputBox (ExtHostInputBox.with_value v) s
  | SetPlaceholder v, QuickPickFields _ =>
    map_quickPick (ExtHostQuickPick.with_placeholder (Some v)) s
  | SetPlaceholder v, InputBoxFields _ =>
    map_inputBox (ExtHostInputBox.with_placeholder (Some v)) s
  | SetCommands c, QuickPickFields _ =>
    map_quickPick (ExtHostQuickPick.with_commands c) s
  | SetCommands c, InputBoxFields _ =>
    map_inputBox (ExtHostInputBox.with_commands c) s
  | SetItems items, _ =>
    map_quickPick (ExtHostQuickPick.with_items items (map_seq 0 items)) s
  | SetCanSelectMany b, _ =>
    map_quickPick (ExtHostQuickPick.with_canSelectMany b) s
  | SetBuiltInFilter b, _ =>
    map_quickPick (ExtHostQuickPick.with_builtInFilter b) s
  | SetPassword b, _ => map_inputBox (ExtHostInputBox.with_password (Some b)) s
  | SetPrompt v, _ => map_inputBox (ExtHostInputBox.with_prompt (Some v)) s
  | SetValidationMessage v, _ =>
    map_inputBox (ExtHostInputBox.with_validationMessage (Some v)) s
  end.

(** What a caller holding a reference can tell of a session: whether it is
    visible, whether it is disposed, what its buffer holds, and which
    setters its class declares. *)
Definition visible_of (this : ref) (w : World) : option bool :=
  (λ s, _visible (super s)) <$> heap w !! this.

Definition disposed_of (this : ref) (w : World) : option bool :=
  (λ s, _disposed (super s)) <$> heap w !! this.

Definition pending_of (this : ref) (w : World) : option (gmap string Value) :=
  (λ s, _pendingUpdate (super s)) <$> heap w !! this.

Definition declares (this : ref) (w : World) (p : Setter) : bool :=
  match heap w !! this with
  | Some s => has_setter (sub s) p
  | None => false
  end.

(** The last value a sequence of setter calls wrote under a key. *)
Fixpoint last_written (key : string) (ps : list Setter) : option Value :=
  match ps with
  | [] => None
  | p :: ps =>
    match last_written key ps with
    | Some v => Some v
    | None => if decide ((staged p).1 = key) then Some (staged p).2 else None
    end
  end.

(** The listeners of the hide emitter, and the [DidHide] calls in a log. *)
Definition hide_listeners (this : ref) (w : World) : option (list nat) :=
  (λ s, listeners (_onDidHideEmitter (super s))) <$> heap w !! this.

Definition is_DidHide (c : Callback) : bool :=
  match c with
  | DidHide _ => true
  | _ => false
  end.

Definition hidden_notifications (log : list Callback) : list Callback :=
  filter (λ c, is_DidHide c = true) log.

(** Nothing turns a disposed session back, and nothing is sent for it. *)
Definition quiet (this : ref) (w w' : World) : Prop :=
  disposed_of this w' = Some true ∧
  updates_for this (proxy w') = updates_for this (proxy w).

(** The listeners of [onDidSelectionChange] of a quick pick. *)
Definition selection_listeners (this : ref) (w : World) : option (list nat) :=
  s ← heap w !! this;
  match sub s with
  | QuickPickFields q =>
    Some (listeners (ExtHostQuickPick._onDidSelectionChangeEmitter q))
  | InputBoxFields _ => None
  end.

(** The steps that are a [showInput]. *)
Definition is_ShowInput (o : Op) : bool :=
  match o with
  | ShowInput _ => true
  | _ => false
  end.

(** ** Getters *)

(** The properties a session can be read through. *)
Inductive Property :=
| PEnabled
| PBusy
| PValue
| PPlaceholder
| PCommands
| PItems
| PCanSelectMany
| PBuiltInFilter
| PFocusedItems
| PSelectedItems
| PPassword
| PPrompt
| PValidationMessage.

(** What a getter returns; a field never assigned reads [undefined]. *)
Inductive Read :=
| RBool (b : bool)
| RString (s : string)
| RUndefined
| RCommands (commands : list QuickInputCommand)
| RItems (items : list QuickPickItem).

(** [get p() { return this._p; }] for each getter of the three classes;
    [None] when the class of the object declares no such getter. *)
Definition getter (p : Property) (s : Session) : option Read :=
  match p, sub s with
  | PEnabled, _ => Some (RBool (_enabled (super s)))
  | PBusy, _ => Some (RBool (_busy (super s)))
  | PValue, QuickPickFields q => Some (RString (ExtHostQuickPick._value q))
  | PValue, InputBoxFields i => Some (RString (ExtHostInputBox._value i))
  | PPlaceholder, QuickPickFields q =>
    Some (from_option RString RUndefined (ExtHostQuickPick._placeholder q))
  | PPlaceholder, InputBoxFields i =>
    Some (from_option RString RUndefined (ExtHostInputBox._placeholder i))
  | PCommands, QuickPickFields q =>
    Some (RCommands (ExtHostQuickPick._commands q))
  | PCommands, InputBoxFields i =>
    Some (RCommands (ExtHostInputBox._commands i))
  | PItems, QuickPickFields q => Some (RItems (ExtHostQuickPick._items q))
  | PCanSelectMany, QuickPickFields q =>
    Some (RBool (ExtHostQuickPick._canSelectMany q))
  | PBuiltInFilter, QuickPickFields q =>
    Some (RBool (ExtHostQuickPick._builtInFilter q))
  | PFocusedItems, QuickPickFields q =>
    Some (RItems (ExtHostQuickPick._focusedItems q))
  | PSelectedItems, QuickPickFields q =>
    Some (RItems (ExtHostQuickPick._selectedItems q))
  | PPassword, InputBoxFields i =>
    Some (from_option RBool RUndefined (ExtHostInputBox._password i))
  | PPrompt, InputBoxFields i =>
    Some (from_option RString RUndefined (ExtHostInputBox._prompt i))
  | PValidationMessage, InputBoxFields i =>
    Some (from_option RString RUndefined (ExtHostInputBox._validationMessage i))
  | _, _ => None
  end.

Definition get (p : Property) (this : ref) (w : World) : option Read :=
  heap w !! this ≫= getter p.

(** ** [showWorkspaceFolderPick] *)

(** A [WorkspaceFolder] of the [vscode] API, with [uri.toString()] for its
    [uri]. *)
Record WorkspaceFolder := {
  uri : string;
  name : string;
  index : nat
}.

(** The callback [(selectedFolder) => ...] of [showWorkspaceFolderPick].
    [ExtHostCommands] and [ExtHostWorkspace] are not among the sources: the
    callback is taken as a function of what the command
    ['_workbench.pickWorkspaceFolder'] resolved to and of the list
    [getWorkspaceFolders()] returns. [[0]] of an empty array is
    [undefined]. *)
Definition showWorkspaceFolderPick_then (selectedFolder : option WorkspaceFolder)
    (getWorkspaceFolders : list WorkspaceFolder) : option WorkspaceFolder :=
  match selectedFolder with
  | None => None
  | Some selectedFolder =>
    head (filter (λ folder, uri folder = uri selectedFolder)
            getWorkspaceFolders)
  end.

(** ** More vocabulary *)

(** The property a setter writes and what its getter reads afterwards. *)
Definition property_of (p : Setter) : Property :=
  match p with
  | SetEnabled _ => PEnabled
  | SetBusy _ => PBusy
  | SetValue _ => PValue
  | SetPlaceholder _ => PPlaceholder
  | SetCommands _ => PCommands
  | SetItems _ => PItems
  | SetCanSelectMany _ => PCanSelectMany
  | SetBuiltInFilter _ => PBuiltInFilter
  | SetPassword _ => PPassword
  | SetPrompt _ => PPrompt
  | SetValidationMessage _ => PValidationMessage
  end.

Definition written (p : Setter) : Read :=
  match p with
  | SetEnabled b | SetBusy b | SetCanSelectMany b | SetBuiltInFilter b
  | SetPassword b => RBool b
  | SetValue v | SetPlaceholder v | SetPrompt v | SetValidationMessage v =>
    RString v
  | SetCommands c => RCommands c
  | SetItems items => RItems items
  end.

(** The session a step is a method call on. *)
Definition op_target (o : Op) : option ref :=
  match o with
  | Set_ this _ | Show this | Hide this | Dispose this | OnDidHide this _
  | OnDidSelectionChange this _ => Some this
  | _ => None
  end.

(** The steps of [showQuickPick]: the call and its continuation. *)
Definition is_pick_step (o : Op) : bool :=
  match o with
  | ShowQuickPick _ | PickThen _ _ _ _ => true
  | _ => false
  end.

(** The label the host shows for an item of a one-shot pick. *)
Definition item_label (item : Item) : string :=
  match item with
  | ItemString s => s
  | ItemObject q => label q
  end.

(** The timers pending for one session. *)
Definition timers_of (this : ref) (w : World) : list (nat * ref) :=
  filter (λ e, e.2 = this) (timers w).

(** More of what every world reached from [initial] satisfies: no timer is
    queued twice; a timer id remembered by a session was handed out, and no
    two sessions remember the same one; the registry maps an id to the
    session of that id, which is not disposed; a [$createOrUpdate] in the
    log names a session of the store. *)
Record wf_more (w : World) : Prop := {
  more_nodup : NoDup (timers w);
  more_bound : ∀ r s t, heap w !! r = Some s →
    _updateTimeout (super s) = Some t → t < next_timer w;
  more_unique : ∀ r r' s s' t, heap w !! r = Some s → heap w !! r' = Some s' →
    _updateTimeout (super s) = Some t → _updateTimeout (super s') = Some t →
    r = r';
  more_registry : ∀ i r, _sessions w !! i = Some r →
    r = i ∧ ∃ s, heap w !! r = Some s ∧ _disposed (super s) = false;
  more_log : ∀ m, PCreateOrUpdate m ∈ proxy w →
    ∃ i, m !! "id" = Some (VNum i) ∧ is_Some (heap w !! i)
}.

(** From one world to the next, no object appears or disappears and every
    object keeps the fields of its subclass. *)
Definition same_subs (w w' : World) : Prop :=
  ∀ r, match heap w !! r, heap w' !! r with
       | Some s, Some s' => sub s' = sub s
       | None, None => True
       | _, _ => False
       end.

(** * Properties *)

(** ** The pending-update buffer *)

Lemma assign_nil (m : gmap string Value) : assign m [] = m.
Proof. reflexivity. Qed.

Lemma assign_cons (m : gmap string Value) k v ps :
  assign m ((k, v) :: ps) = assign (<[k := v]> m) ps.
Proof. reflexivity. Qed.

Lemma assign_app (m : gmap string Value) ps qs :
  assign m (ps ++ qs) = assign (assign m ps) qs.
Proof. unfold assign. apply foldl_app. Qed.

Lemma assign_lookup_ne (m : gmap string Value) ps key :
  Forall (λ kv, kv.1 ≠ key) ps → assign m ps !! key = m !! key.
Proof.
  intros H. revert m. induction H as [|[k v] ps Hk _ IH]; intros m; [done|].
  rewrite assign_cons, IH. by apply lookup_insert_ne.
Qed.

Lemma staged_not_id p : (staged p).1 ≠ "id".
Proof. by destruct p. Qed.

(** ** Well-formed worlds *)

Lemma wf_initial : wf initial.
Proof.
  split; simpl.
  - intros r s H. by rewrite lookup_empty in H.
  - intros t r H. by apply not_elem_of_nil in H.
  - intros r s H. by rewrite lookup_empty in H.
Qed.

Lemma wf_store this s s' w :
  wf w → heap w !! this = Some s → same_core s s' → wf (store this s' w).
Proof.
  intros [Hid Ht Hs] Hthis (Ei & Et & Ep & Ed). split; simpl.
  - intros r x. rewrite lookup_insert. case_decide as E.
    + subst r. intros [= <-]. rewrite Ei, Ep. by apply Hid.
    + apply Hid.
  - intros t r Hin. destruct (Ht t r Hin) as (Hlt & x & Hx & Hxt & Hxd).
    split; [done|]. rewrite lookup_insert. case_decide as E.
    + subst r. exists s'. rewrite Hthis in Hx. injection Hx as <-.
      by rewrite Et, Ed.
    + by exists x.
  - intros r x. rewrite lookup_insert. case_decide as E.
    + subst r. intros [= <-]. rewrite Ed. by apply Hs.
    + apply Hs.
Qed.

Lemma wf_modify this f w :
  (∀ s, same_core s (f s)) → wf w → wf (modify this f w).
Proof.
  intros Hf Hw. destruct (heap w !! this) as [s|] eqn:E.
  - replace (modify this f w) with (store this (f s) w).
    + by eapply wf_store.
    + unfold modify, store. f_equal. apply map_eq. intros i.
      rewrite lookup_alter, lookup_insert. case_decide; [subst|done].
      by rewrite E.
  - replace (modify this f w) with w; [done|].
    destruct w. unfold modify, with_heap. simpl in *. f_equal.
    symmetry. apply map_eq. intros i. rewrite lookup_alter.
    case_decide; [subst|done]. by rewrite E.
Qed.

Lemma elem_of_cleared id l e : e ∈ cleared id l → e ∈ l ∧ id ≠ Some e.1.
Proof.
  destruct id as [t|]; simpl; [|done].
  rewrite list_elem_of_filter. intros [H ?]. split; [done|]. congruence.
Qed.

(** [update] on a session that is disposed, hidden, visible. *)
Lemma update_disposed this properties w s :
  heap w !! this = Some s → _disposed (super s) = true →
  update this properties w = w.
Proof. intros H Hd. unfold update. by rewrite H, Hd. Qed.

Lemma update_hidden this properties w s :
  heap w !! this = Some s → _disposed (super s) = false →
  _visible (super s) = false →
  update this properties w =
  store this
    (map_super
       (with_pendingUpdate (assign (_pendingUpdate (super s)) properties)) s) w.
Proof. intros H Hd Hv. unfold update. rewrite H, Hd. simpl. by rewrite Hv. Qed.

Lemma update_visible this properties w s :
  heap w !! this = Some s → _disposed (super s) = false →
  _visible (super s) = true →
  update this properties w =
  store this
    (map_super (with_updateTimeout (Some (next_timer w)))
       (map_super
          (with_pendingUpdate (assign (_pendingUpdate (super s)) properties))
          s))
    (with_timers
       (cleared (_updateTimeout (super s)) (timers w) ++ [(next_timer w, this)])
       (S (next_timer w)) w).
Proof.
  intros H Hd Hv. unfold update. rewrite H, Hd. simpl. rewrite Hv. simpl.
  by destruct (_updateTimeout (super s)).
Qed.

Lemma wf_update this properties w :
  Forall (λ kv, kv.1 ≠ "id") properties → wf w → wf (update this properties w).
Proof.
  intros Hp Hw.
  destruct (heap w !! this) as [s|] eqn:Hthis;
    [|by unfold update; rewrite Hthis].
  destruct (_disposed (super s)) eqn:Hd;
    [by erewrite update_disposed|].
  destruct (_visible (super s)) eqn:Hv.
  - erewrite update_visible by done. destruct Hw as [Hid Ht Hs]. split; simpl.
    + intros r x. rewrite lookup_insert. case_decide as E; [|apply Hid].
      subst r. intros [= <-]. simpl. rewrite assign_lookup_ne by done.
      by apply Hid.
    + intros t r. rewrite elem_of_app, list_elem_of_singleton.
      intros [Hin|[= -> ->]].
      * apply elem_of_cleared in Hin as [Hin Hneq]. simpl in Hneq.
        destruct (Ht t r Hin) as (Hlt & x & Hx & Hxt & Hxd).
        split; [lia|]. destruct (decide (r = this)) as [->|Hr].
        -- congruence.
        -- exists x. by rewrite lookup_insert_ne.
      * split; [lia|]. eexists. rewrite lookup_insert_eq. by split.
    + intros r x. rewrite lookup_insert. case_decide as E; [|apply Hs].
      subst r. intros [= <-]. simpl. by apply Hs.
  - erewrite update_hidden by done. eapply wf_store; [done..|].
    repeat split; simpl. by apply assign_lookup_ne.
Qed.

Lemma wf_flush this w : wf w → wf (flush this w).
Proof.
  intros Hw. unfold flush. destruct (heap w !! this) as [s|] eqn:Hthis; [|done].
  destruct (_disposed (super s)) eqn:Hd; [done|].
  assert (wf (call_proxy (PCreateOrUpdate (_pendingUpdate (super s))) w)) as Hw'.
  { by destruct Hw. }
  eapply wf_store; [done|exact Hthis|]. repeat split; simpl.
  rewrite lookup_singleton_eq. destruct Hw as [Hid _ _].
  destruct (Hid _ _ Hthis) as (-> & _ & ->). done.
Qed.

Lemma wf_foldl_flush (l : list (nat * ref)) w : wf w → wf (foldl (λ w e, flush e.2 w) w l).
Proof.
  revert w. induction l as [|e l IH]; intros w Hw; [done|].
  simpl. apply IH. by apply wf_flush.
Qed.

Lemma wf_drop_timers l w :
  wf w → l ⊆ timers w → wf (with_timers l (next_timer w) w).
Proof.
  intros [Hid Ht Hs] Hl. split; simpl; [done| |done].
  intros t r H. by apply Ht, Hl.
Qed.

Lemma wf_run_timers w : wf w → wf (run_timers w).
Proof.
  intros Hw. apply wf_foldl_flush, wf_drop_timers; [done|].
  apply list_subseteq_nil.
Qed.

Lemma wf_fire_timer w : wf w → wf (fire_timer w).
Proof.
  intros Hw. unfold fire_timer. destruct (timers w) as [|e l] eqn:E; [done|].
  apply wf_flush, wf_drop_timers; [done|]. rewrite E. set_solver.
Qed.

Lemma dispose_live this w s :
  heap w !! this = Some s → _disposed (super s) = false →
  dispose this w =
  call_proxy (PDispose (_id (super s)))
    (with_onDispose (onDispose w ++ [_id (super s)])
       (with_sessions (delete (_id (super s)) (_sessions w))
          (with_timers (cleared (_updateTimeout (super s)) (timers w))
             (next_timer w) (store this (disposed_session s) w)))).
Proof.
  intros H Hd. unfold dispose. rewrite H, Hd. simpl.
  by destruct (_updateTimeout (super s)).
Qed.

Lemma dispose_disposed this w s :
  heap w !! this = Some s → _disposed (super s) = true → dispose this w = w.
Proof. intros H Hd. unfold dispose. by rewrite H, Hd. Qed.

Lemma wf_dispose this w : wf w → wf (dispose this w).
Proof.
  intros Hw.
  destruct (heap w !! this) as [s|] eqn:Hthis;
    [|by unfold dispose; rewrite Hthis].
  destruct (_disposed (super s)) eqn:Hd; [by erewrite dispose_disposed|].
  erewrite dispose_live by done.
  destruct Hw as [Hid Ht Hs].
  destruct (Hid _ _ Hthis) as (Ei & Elt & Ep).
  split; simpl.
  - intros r x. rewrite lookup_insert. case_decide as E; [|apply Hid].
    subst r. by intros [= <-].
  - intros t r Hin. apply elem_of_cleared in Hin as [Hin Hneq]. simpl in Hneq.
    destruct (Ht t r Hin) as (Hlt & x & Hx & Hxt & Hxd).
    split; [done|]. destruct (decide (r = this)) as [->|Hr].
    + congruence.
    + exists x. by rewrite lookup_insert_ne.
  - rewrite Ei. intros r x. rewrite lookup_insert. case_decide as E.
    + subst r. intros [= <-]. simpl. apply lookup_delete_eq.
    + intros Hx. rewrite lookup_delete_ne by done. by apply Hs.
Qed.

Lemma wf_construct extensionId c w :
  wf w →
  wf (with_sessions
        (<[(construct extensionId c w).1 := (construct extensionId c w).1]>
           (_sessions (construct extensionId c w).2))
        (construct extensionId c w).2).
Proof.
  intros [Hid Ht Hs]. split; simpl.
  - intros r x. rewrite lookup_insert. case_decide as E.
    + subst r. intros [= <-]. simpl. rewrite lookup_singleton_eq.
      split; [done|]. split; [lia|done].
    + intros Hx. destruct (Hid _ _ Hx) as (? & ? & ?).
      split; [done|]. split; [lia|done].
  - intros t r Hin. destruct (Ht t r Hin) as (Hlt & x & Hx & Hxt & Hxd).
    split; [done|]. exists x. split; [|done].
    rewrite lookup_insert_ne; [done|].
    destruct (Hid _ _ Hx) as (_ & ? & _). lia.
  - intros r x. rewrite !lookup_insert. case_decide as E.
    + subst r. by intros [= <-].
    + apply Hs.
Qed.

Lemma wf_createQuickPick extensionId w :
  wf w → wf (createQuickPick extensionId w).2.
Proof. apply wf_construct. Qed.

Lemma wf_createInputBox extensionId w :
  wf w → wf (createInputBox extensionId w).2.
Proof. apply wf_construct. Qed.

Lemma set_local_super p s :
  super (set_local p s) =
  match p with
  | SetEnabled b => with_enabled b (super s)
  | SetBusy b => with_busy b (super s)
  | _ => super s
  end.
Proof.
  destruct s as [q [f|f]], p; reflexivity.
Qed.

Lemma set_local_same_core p s : same_core s (set_local p s).
Proof. unfold same_core. rewrite set_local_super. by destruct p. Qed.

Lemma set_local_has_setter p s p' :
  has_setter (sub (set_local p s)) p' = has_setter (sub s) p'.
Proof. destruct s as [q [f|f]], p, p'; reflexivity. Qed.

Lemma modify_lookup this f w :
  heap (modify this f w) !! this = f <$> heap w !! this.
Proof. simpl. apply lookup_alter_eq. Qed.

Lemma modify_store this f w s :
  heap w !! this = Some s → modify this f w = store this (f s) w.
Proof.
  intros E. unfold modify, store. f_equal. apply map_eq. intros i.
  rewrite lookup_alter, lookup_insert. case_decide; [subst|done].
  by rewrite E.
Qed.

(** A setter the class declares: the assignment, then [update]. *)
Lemma call_setter_eq p this w s :
  heap w !! this = Some s → has_setter (sub s) p = true →
  call_setter p this w = update this [staged p] (modify this (set_local p) w).
Proof.
  intros H Hp. unfold call_setter. rewrite H.
  assert (∀ f g, (∀ x, sub x = sub s → f x = g x) →
            modify this f w = modify this g w) as Hm.
  { intros f g Hfg. rewrite !(modify_store _ _ _ _ H). f_equal. by apply Hfg. }
  destruct (sub s) as [q|i] eqn:Hsub, p; try discriminate Hp; try reflexivity;
    unfold QuickPick.set_value, QuickPick.set_placeholder,
      QuickPick.set_commands, InputBox.set_value, InputBox.set_placeholder,
      InputBox.set_commands; simpl; f_equal; apply Hm;
    intros x Hx; unfold set_local; by rewrite Hx.
Qed.

Lemma call_setter_undeclared p this w s :
  heap w !! this = Some s → has_setter (sub s) p = false →
  call_setter p this w = w.
Proof.
  intros H Hp. unfold call_setter. rewrite H.
  by destruct (sub s), p.
Qed.

Lemma wf_call_setter p this w : wf w → wf (call_setter p this w).
Proof.
  intros Hw. destruct (heap w !! this) as [s|] eqn:H;
    [|by unfold call_setter; rewrite H].
  destruct (has_setter (sub s) p) eqn:Hp.
  - erewrite call_setter_eq by done. apply wf_update.
    + constructor; [apply staged_not_id|constructor].
    + apply wf_modify; [apply set_local_same_core|done].
  - by erewrite call_setter_undeclared.
Qed.

Lemma wf_with_proxy l w : wf w → wf (with_proxy l w).
Proof. by intros []. Qed.

Lemma wf_with_callbacks l w : wf w → wf (with_callbacks l w).
Proof. by intros []. Qed.

Lemma wf_with_onDidSelectItem h w : wf w → wf (with_onDidSelectItem h w).
Proof. by intros []. Qed.

Lemma wf_with_validateInput v w : wf w → wf (with_validateInput v w).
Proof. by intros []. Qed.

Lemma wf_step o w : wf w → wf (step o w).
Proof.
  intros Hw. destruct o; simpl.
  - by apply wf_createQuickPick.
  - by apply wf_createInputBox.
  - by apply wf_call_setter.
  - apply wf_update; [by repeat constructor|]. by apply wf_modify.
  - apply wf_update; [by repeat constructor|]. by apply wf_modify.
  - by apply wf_dispose.
  - by apply wf_modify.
  - apply wf_modify; [|done]. intros s. unfold map_quickPick.
    by destruct (sub s).
  - by apply wf_run_timers.
  - unfold rpc_onDidSelectItems. repeat case_match; try done.
    by apply wf_with_callbacks.
  - by apply wf_with_proxy, wf_with_onDidSelectItem.
  - unfold showQuickPick_then. repeat case_match; simplify_eq; simpl; try done;
      repeat first [apply wf_with_proxy | apply wf_with_onDidSelectItem]; done.
  - unfold rpc_onItemSelected. case_match; [|done]. by apply wf_with_callbacks.
  - by apply wf_with_proxy, wf_with_validateInput.
  - unfold rpc_validateInput. case_match; [|done]. by apply wf_with_callbacks.
  - by apply wf_fire_timer.
Qed.

Lemma run_app ops ops' w : run (ops ++ ops') w = run ops' (run ops w).
Proof. apply foldl_app. Qed.

Lemma wf_run ops w : wf w → wf (run ops w).
Proof.
  revert w. induction ops as [|o ops IH]; intros w Hw; [done|].
  apply IH. by apply wf_step.
Qed.

(** Every world of a history is well formed. *)
Lemma wf_reachable ops : wf (run ops initial).
Proof. apply wf_run, wf_initial. Qed.

Lemma assign_last_written (m : gmap string Value) ps key :
  assign m (staged <$> ps) !! key =
  match last_written key ps with
  | Some v => Some v
  | None => m !! key
  end.
Proof.
  revert m. induction ps as [|p ps IH]; intros m; [done|].
  rewrite fmap_cons. destruct (staged p) as [k v] eqn:Ep.
  rewrite assign_cons, IH. simpl. destruct (last_written key ps); [done|].
  rewrite Ep. simpl. rewrite lookup_insert. by case_decide.
Qed.

Lemma last_written_id ps : last_written "id" ps = None.
Proof.
  induction ps as [|p ps IH]; [done|]. simpl. rewrite IH.
  case_decide as E; [|done]. by apply staged_not_id in E.
Qed.

Lemma last_written_visible ps : last_written "visible" ps = None.
Proof.
  induction ps as [|p ps IH]; [done|]. simpl. rewrite IH.
  case_decide as E; [|done]. by destruct p.
Qed.

(** ** Flushing *)

Lemma updates_for_snoc id log c :
  updates_for id (log ++ [c]) =
  updates_for id log ++ (if decide (update_id c = Some id) then [c] else []).
Proof.
  unfold updates_for. rewrite filter_app, filter_cons, filter_nil.
  by case_decide.
Qed.

Lemma update_id_pending w r s :
  wf w → heap w !! r = Some s →
  update_id (PCreateOrUpdate (_pendingUpdate (super s))) = Some r.
Proof.
  intros [Hid _ _] H. destruct (Hid _ _ H) as (_ & _ & E). simpl. by rewrite E.
Qed.

(** The flush of another session sends nothing in the name of this one. *)
Lemma flush_other this r w :
  wf w → r ≠ this →
  heap (flush r w) !! this = heap w !! this ∧
  updates_for this (proxy (flush r w)) = updates_for this (proxy w).
Proof.
  intros Hw Hr. unfold flush. destruct (heap w !! r) as [s|] eqn:H; [|done].
  destruct (_disposed (super s)); [done|]. simpl. split.
  - by rewrite lookup_insert_ne.
  - rewrite updates_for_snoc, (update_id_pending w r s) by done.
    rewrite decide_False by congruence. apply app_nil_r.
Qed.

Lemma foldl_flush_others this (l : list (nat * ref)) w :
  wf w → Forall (λ e, e.2 ≠ this) l →
  heap (foldl (λ w e, flush e.2 w) w l) !! this = heap w !! this ∧
  updates_for this (proxy (foldl (λ w e, flush e.2 w) w l)) =
    updates_for this (proxy w) ∧
  wf (foldl (λ w e, flush e.2 w) w l).
Proof.
  intros Hw Hl. revert w Hw. induction Hl as [|e l He _ IH]; intros w Hw.
  - done.
  - simpl. destruct (flush_other this e.2 w Hw He) as [E1 E2].
    destruct (IH (flush e.2 w) (wf_flush _ _ Hw)) as (E3 & E4 & Hw').
    rewrite E3, E4. done.
Qed.

(** The flush of a live session sends its buffer and empties it. *)
Lemma flush_live this w s :
  wf w → heap w !! this = Some s → _disposed (super s) = false →
  updates_for this (proxy (flush this w)) =
    updates_for this (proxy w) ++ [PCreateOrUpdate (_pendingUpdate (super s))] ∧
  pending_of this (flush this w) = Some {[ "id" := VNum this ]}.
Proof.
  intros Hw H Hd. unfold flush, pending_of. rewrite H, Hd. simpl. split.
  - rewrite updates_for_snoc, (update_id_pending w this s) by done.
    by rewrite decide_True.
  - rewrite lookup_insert_eq. simpl. destruct Hw as [Hid _ _].
    by destruct (Hid _ _ H) as (-> & _).
Qed.

(** A turn ends with the one timer of a live session pending last. *)
Lemma run_timers_single this w s l t :
  wf w → timers w = l ++ [(t, this)] → Forall (λ e, e.2 ≠ this) l →
  heap w !! this = Some s → _disposed (super s) = false →
  updates_for this (proxy (run_timers w)) =
    updates_for this (proxy w) ++ [PCreateOrUpdate (_pendingUpdate (super s))] ∧
  pending_of this (run_timers w) = Some {[ "id" := VNum this ]}.
Proof.
  intros Hw Ht Hl H Hd. unfold run_timers. rewrite Ht, foldl_app. simpl.
  assert (wf (with_timers [] (next_timer w) w)) as Hw0.
  { destruct Hw as [Hid _ Hs]. split; simpl; [done| |done].
    intros ? ? Hin. by apply not_elem_of_nil in Hin. }
  destruct (foldl_flush_others this l _ Hw0 Hl) as (E1 & E2 & Hw1).
  simpl in E1, E2.
  destruct (flush_live this _ s Hw1) as [E3 E4]; [by rewrite E1|done|].
  rewrite E3, E4, E2. done.
Qed.

(** [update] on a visible live session leaves one timer for it, the last. *)
Lemma update_visible_timers this properties w s :
  wf w → heap w !! this = Some s → _disposed (super s) = false →
  _visible (super s) = true →
  ∃ l, timers (update this properties w) = l ++ [(next_timer w, this)] ∧
       Forall (λ e, e.2 ≠ this) l.
Proof.
  intros Hw H Hd Hv. erewrite update_visible by done. simpl.
  eexists. split; [done|]. apply Forall_forall. intros [t r] Hin.
  apply elem_of_cleared in Hin as [Hin Hneq]. simpl in *. intros ->.
  destruct Hw as [_ Ht _]. destruct (Ht _ _ Hin) as (_ & x & Hx & Hxt & _).
  congruence.
Qed.

(** ** Setters on a live session *)

Lemma set_local_fields p s :
  _visible (super (set_local p s)) = _visible (super s) ∧
  _disposed (super (set_local p s)) = _disposed (super s) ∧
  _pendingUpdate (super (set_local p s)) = _pendingUpdate (super s) ∧
  _updateTimeout (super (set_local p s)) = _updateTimeout (super s).
Proof. rewrite set_local_super. by destruct p. Qed.

Lemma call_setter_live p this w s :
  wf w → heap w !! this = Some s → _disposed (super s) = false →
  has_setter (sub s) p = true →
  wf (call_setter p this w) ∧
  ∃ s', heap (call_setter p this w) !! this = Some s' ∧
    _visible (super s') = _visible (super s) ∧
    _disposed (super s') = false ∧
    _pendingUpdate (super s') =
      <[(staged p).1 := (staged p).2]> (_pendingUpdate (super s)) ∧
    (∀ p', has_setter (sub s') p' = has_setter (sub s) p') ∧
    proxy (call_setter p this w) = proxy w ∧
    if _visible (super s)
    then ∃ l, timers (call_setter p this w) = l ++ [(next_timer w, this)] ∧
              Forall (λ e, e.2 ≠ this) l
    else timers (call_setter p this w) = timers w ∧
         _updateTimeout (super s') = _updateTimeout (super s).
Proof.
  intros Hw H Hd Hp. split; [by apply wf_call_setter|].
  rewrite (call_setter_eq _ _ _ _ H Hp), (modify_store _ _ _ _ H).
  destruct (set_local_fields p s) as (Ev & Ed & Epend & Et).
  rewrite Hd in Ed.
  assert (heap (store this (set_local p s) w) !! this = Some (set_local p s))
    as H1 by apply lookup_insert_eq.
  assert (wf (store this (set_local p s) w)) as Hw1.
  { eapply wf_store; [done..|apply set_local_same_core]. }
  destruct (_visible (super s)) eqn:Hv.
  - destruct (update_visible_timers this [staged p] _ _ Hw1 H1)
      as (l & El & Hl); [congruence..|].
    erewrite update_visible in * by (done || congruence).
    eexists. split; [apply lookup_insert_eq|]. simpl.
    rewrite Epend. split_and!; try done.
    + intros p'. apply set_local_has_setter.
    + by exists l.
  - erewrite update_hidden by (done || congruence).
    eexists. split; [apply lookup_insert_eq|]. simpl.
    rewrite Epend. split_and!; try done.
    intros p'. apply set_local_has_setter.
Qed.

Lemma call_setters_snoc ps p this w :
  call_setters (ps ++ [p]) this w = call_setter p this (call_setters ps this w).
Proof. unfold call_setters. by rewrite foldl_app. Qed.

Lemma call_setters_live ps this w s :
  wf w → heap w !! this = Some s → _disposed (super s) = false →
  Forall (λ p, has_setter (sub s) p = true) ps →
  wf (call_setters ps this w) ∧
  ∃ s', heap (call_setters ps this w) !! this = Some s' ∧
    _visible (super s') = _visible (super s) ∧
    _disposed (super s') = false ∧
    _pendingUpdate (super s') =
      assign (_pendingUpdate (super s)) (staged <$> ps) ∧
    (∀ p', has_setter (sub s') p' = has_setter (sub s) p') ∧
    proxy (call_setters ps this w) = proxy w ∧
    (_visible (super s) = false →
     timers (call_setters ps this w) = timers w ∧
     _updateTimeout (super s') = _updateTimeout (super s)).
Proof.
  intros Hw H Hd Hps. revert w s Hw H Hd Hps.
  induction ps as [|p ps IH]; intros w s Hw H Hd Hps.
  - split; [done|]. by exists s.
  - apply Forall_cons in Hps as [Hp Hps].
    destruct (call_setter_live p this w s Hw H Hd Hp)
      as (Hw1 & s1 & H1 & Ev1 & Ed1 & Ep1 & Eh1 & Ex1 & Et1).
    destruct (IH _ s1 Hw1 H1 Ed1) as (Hw2 & s2 & H2 & Ev2 & Ed2 & Ep2 & Eh2 & Ex2 & Et2).
    { eapply Forall_impl; [done|]. intros p'. simpl. by rewrite Eh1. }
    split; [done|]. exists s2. simpl. split; [done|].
    rewrite Ev2, Ep2, Ep1, Ex2, Ex1. split_and!; try done.
    + intros p'. by rewrite Eh2.
    + intros Hv. rewrite Hv in Et1. destruct Et1 as [<- <-].
      apply Et2. congruence.
Qed.

(** C1. On a visible session that is not disposed, any number of setter
    calls (at least one) within a turn make the end of the turn send exactly
    one [$createOrUpdate] for the session. The message carries the session
    id, under every key written in the turn the last value written, and
    under the other keys what the buffer held before; after the flush the
    buffer holds the id and nothing else. *)
Theorem setters_in_a_turn_flush_once ops this ps :
  visible_of this (run ops initial) = Some true →
  disposed_of this (run ops initial) = Some false →
  ps ≠ [] →
  Forall (λ p, declares this (run ops initial) p = true) ps →
  ∃ m,
    updates_for this
      (proxy (run_timers (call_setters ps this (run ops initial)))) =
    updates_for this (proxy (run ops initial)) ++ [PCreateOrUpdate m] ∧
    m !! "id" = Some (VNum this) ∧
    (∀ key v, last_written key ps = Some v → m !! key = Some v) ∧
    (∀ key, last_written key ps = None →
       Some (m !! key) = (λ b, b !! key) <$> pending_of this (run ops initial)) ∧
    pending_of this (run_timers (call_setters ps this (run ops initial))) =
      Some {[ "id" := VNum this ]}.
Proof.
  pose proof (wf_reachable ops) as Hw. set (w := run ops initial) in *.
  unfold visible_of, disposed_of, declares, pending_of at 1.
  destruct (heap w !! this) as [s|] eqn:H; [|done]. simpl.
  intros [= Hv] [= Hd] Hne Hps.
  destruct (exists_last Hne) as (ps0 & p & ->).
  apply Forall_app in Hps as [Hps0 Hp]. apply Forall_inv in Hp.
  simpl in Hp.
  destruct (call_setters_live ps0 this w s Hw H Hd Hps0)
    as (Hw0 & s0 & H0 & Ev0 & Ed0 & Ep0 & Eh0 & Ex0 & _).
  rewrite call_setters_snoc.
  destruct (call_setter_live p this _ s0 Hw0 H0 Ed0)
    as (Hw1 & s1 & H1 & Ev1 & Ed1 & Ep1 & Eh1 & Ex1 & Et1);
    [by rewrite Eh0|].
  rewrite Ev0, Hv in Et1. destruct Et1 as (l & El & Hl).
  destruct (run_timers_single this _ s1 l _ Hw1 El Hl H1 Ed1) as [E1 E2].
  exists (_pendingUpdate (super s1)). rewrite E1, E2, Ex1, Ex0.
  assert (_pendingUpdate (super s1) =
          assign (_pendingUpdate (super s)) (staged <$> (ps0 ++ [p]))) as ->.
  { rewrite fmap_app, assign_app, <- Ep0, Ep1. simpl. by destruct (staged p). }
  destruct Hw as [Hid _ _]. destruct (Hid _ _ H) as (_ & _ & Eid).
  split_and!; [done| | | |done].
  - by rewrite assign_last_written, last_written_id.
  - intros key v E. by rewrite assign_last_written, E.
  - intros key E. by rewrite assign_last_written, E.
Qed.

Lemma setters_in_a_turn_flush_once_witness :
  ∃ m,
    updates_for 1
      (proxy (run_timers
         (call_setters [SetValue "a"; SetBusy true; SetValue "b"] 1
            (run [CreateQuickPick "ext"; Show 1; Turn] initial)))) =
    updates_for 1 (proxy (run [CreateQuickPick "ext"; Show 1; Turn] initial))
      ++ [PCreateOrUpdate m] ∧
    m !! "id" = Some (VNum 1) ∧
    (∀ key v,
       last_written key [SetValue "a"; SetBusy true; SetValue "b"] = Some v →
       m !! key = Some v) ∧
    (∀ key,
       last_written key [SetValue "a"; SetBusy true; SetValue "b"] = None →
       Some (m !! key) =
       (λ b, b !! key) <$>
         pending_of 1 (run [CreateQuickPick "ext"; Show 1; Turn] initial)) ∧
    pending_of 1
      (run_timers
         (call_setters [SetValue "a"; SetBusy true; SetValue "b"] 1
            (run [CreateQuickPick "ext"; Show 1; Turn] initial))) =
      Some {[ "id" := VNum 1 ]}.
Proof.
  apply (setters_in_a_turn_flush_once
           [CreateQuickPick "ext"; Show 1; Turn] 1
           [SetValue "a"; SetBusy true; SetValue "b"]).
  - vm_compute. reflexivity.
  - vm_compute. reflexivity.
  - discriminate.
  - repeat constructor.
Defined.

(** ** [show] *)

Lemma show_live this w s :
  wf w → heap w !! this = Some s → _disposed (super s) = false →
  wf (show this w) ∧
  ∃ s', heap (show this w) !! this = Some s' ∧
    _visible (super s') = true ∧ _disposed (super s') = false ∧
    _pendingUpdate (super s') =
      <["visible" := VBool true]> (_pendingUpdate (super s)) ∧
    proxy (show this w) = proxy w ∧
    ∃ l, timers (show this w) = l ++ [(next_timer w, this)] ∧
         Forall (λ e, e.2 ≠ this) l.
Proof.
  intros Hw H Hd. split; [apply (wf_step (Show this) w Hw)|].
  unfold show. rewrite (modify_store _ _ _ _ H).
  set (s1 := map_super (with_visible true) s).
  assert (heap (store this s1 w) !! this = Some s1) as H1
    by apply lookup_insert_eq.
  assert (wf (store this s1 w)) as Hw1 by (by eapply wf_store).
  destruct (update_visible_timers this [("visible", VBool true)] _ _ Hw1 H1)
    as (l & El & Hl); [done..|].
  erewrite update_visible in * by done.
  eexists. split; [apply lookup_insert_eq|]. simpl. split_and!; try done.
  by exists l.
Qed.

(** A session just constructed and registered. *)
Lemma construct_fresh extensionId c w :
  wf w →
  heap (construct extensionId c w).2 !! (construct extensionId c w).1 =
    Some (new_session (_nextId w) extensionId c) ∧
  (construct extensionId c w).1 = _nextId w.
Proof. intros _. split; [apply lookup_insert_eq|done]. Qed.

(** C5. A session is created (a quick pick or an input box), any setters
    its class declares are called, and [show()] is called: the session is
    then visible in its own state, [visible: true] is staged, and the end of
    the turn sends exactly one [$createOrUpdate] for the session; it carries
    [visible: true], the session id and the last value written under every
    key written before [show()], and nothing else. *)
Theorem show_delivers_visible ops extensionId (quickPick : bool) ps :
  Forall
    (λ p, has_setter
            (if quickPick then QuickPickFields ExtHostQuickPick.init
             else InputBoxFields ExtHostInputBox.init) p = true) ps →
  ∀ this w1,
    (if quickPick then createQuickPick extensionId (run ops initial)
     else createInputBox extensionId (run ops initial)) = (this, w1) →
    visible_of this (show this (call_setters ps this w1)) = Some true ∧
    (pending_of this (show this (call_setters ps this w1)) ≫=
       (λ b, b !! "visible")) = Some (VBool true) ∧
    ∃ m,
      updates_for this
        (proxy (run_timers (show this (call_setters ps this w1)))) =
      updates_for this (proxy (run ops initial)) ++ [PCreateOrUpdate m] ∧
      m !! "visible" = Some (VBool true) ∧
      m !! "id" = Some (VNum this) ∧
      (∀ key v, last_written key ps = Some v → m !! key = Some v) ∧
      (∀ key, key ≠ "visible" → key ≠ "id" → last_written key ps = None →
         m !! key = None).
Proof.
  intros Hps this w1 Hc.
  pose proof (wf_reachable ops) as Hw. set (w := run ops initial) in *.
  set (c := if quickPick then QuickPickFields ExtHostQuickPick.init
            else InputBoxFields ExtHostInputBox.init) in *.
  assert (this = _nextId w ∧
          w1 = with_sessions (<[_nextId w := _nextId w]> (_sessions w))
                 (store (_nextId w) (new_session (_nextId w) extensionId c)
                    (with_nextId (S (_nextId w)) w))) as [-> ->].
  { unfold c. destruct quickPick; by injection Hc as <- <-. }
  pose proof (wf_construct extensionId c w Hw) as Hw1. simpl in Hw1.
  clear Hc. set (this := _nextId w) in *.
  set (w1 := with_sessions _ _) in *.
  assert (heap w1 !! this = Some (new_session this extensionId c)) as H1
    by apply lookup_insert_eq.
  destruct (call_setters_live ps this w1 _ Hw1 H1 eq_refl Hps)
    as (Hw2 & s2 & H2 & Ev2 & Ed2 & Ep2 & _ & Ex2 & _).
  destruct (show_live this _ s2 Hw2 H2 Ed2)
    as (Hw3 & s3 & H3 & Ev3 & Ed3 & Ep3 & Ex3 & l & El & Hl).
  destruct (run_timers_single this _ s3 l _ Hw3 El Hl H3 Ed3) as [E1 _].
  unfold visible_of, pending_of. rewrite H3. simpl. rewrite Ev3, Ep3.
  split; [done|]. split; [by rewrite lookup_insert_eq|].
  exists (_pendingUpdate (super s3)). rewrite E1, Ex3, Ex2, Ep3, Ep2.
  split; [done|]. split; [by rewrite lookup_insert_eq|]. simpl.
  split_and!.
  - rewrite lookup_insert_ne by done.
    rewrite assign_last_written, last_written_id. apply lookup_singleton_eq.
  - intros key v E. rewrite lookup_insert_ne.
    + by rewrite assign_last_written, E.
    + intros <-. by rewrite last_written_visible in E.
  - intros key Hk1 Hk2 E. rewrite lookup_insert_ne by done.
    rewrite assign_last_written, E. by apply lookup_singleton_ne.
Qed.

Lemma show_delivers_visible_witness :
  ∃ m,
    updates_for 1
      (proxy (run_timers
         (show 1 (call_setters [SetValue "a"; SetItems []; SetValue "b"] 1
                    (createQuickPick "ext" (run [] initial)).2)))) =
    updates_for 1 (proxy (run [] initial)) ++ [PCreateOrUpdate m] ∧
    m !! "visible" = Some (VBool true) ∧
    m !! "value" = Some (VStr "b").
Proof.
  destruct (show_delivers_visible [] "ext" true
              [SetValue "a"; SetItems []; SetValue "b"]
              ltac:(repeat constructor) 1
              (createQuickPick "ext" (run [] initial)).2 eq_refl)
    as (_ & _ & m & E & Ev & _ & Ew & _).
  exists m. split; [exact E|]. split; [exact Ev|]. by apply Ew.
Defined.

(** ** Disposal *)

Lemma no_timer_after_clear this w s t :
  wf w → heap w !! this = Some s →
  (t, this) ∉ cleared (_updateTimeout (super s)) (timers w).
Proof.
  intros [_ Ht _] H Hin. apply elem_of_cleared in Hin as [Hin Hneq].
  destruct (Ht _ _ Hin) as (_ & x & Hx & Hxt & _). simpl in *. congruence.
Qed.

(** C3 (as the code has it). Calling [dispose()] twice on a live session:
    the second call changes nothing; the host gets exactly one [$dispose];
    no listener is called at all, so no "hidden" notification is produced
    (the hide emitter is torn down, not fired); no flush timer of the
    session stays pending; the session, registered before, is deleted from
    the registry, and [_onDispose] has run exactly once. *)
Theorem dispose_twice ops this :
  disposed_of this (run ops initial) = Some false →
  dispose this (dispose this (run ops initial)) =
    dispose this (run ops initial) ∧
  proxy (dispose this (dispose this (run ops initial))) =
    proxy (run ops initial) ++ [PDispose this] ∧
  callbacks (dispose this (dispose this (run ops initial))) =
    callbacks (run ops initial) ∧
  hide_listeners this (dispose this (dispose this (run ops initial))) =
    Some [] ∧
  (∀ t, (t, this) ∉ timers (dispose this (dispose this (run ops initial)))) ∧
  _sessions (run ops initial) !! this = Some this ∧
  _sessions (dispose this (dispose this (run ops initial))) !! this = None ∧
  onDispose (dispose this (dispose this (run ops initial))) =
    onDispose (run ops initial) ++ [this] ∧
  disposed_of this (dispose this (dispose this (run ops initial))) = Some true.
Proof.
  pose proof (wf_reachable ops) as Hw. set (w := run ops initial) in *.
  unfold disposed_of at 1. destruct (heap w !! this) as [s|] eqn:H; [|done].
  simpl. intros [= Hd].
  assert (heap (dispose this w) !! this = Some (disposed_session s)) as H1.
  { erewrite dispose_live by done. apply lookup_insert_eq. }
  assert (dispose this (dispose this w) = dispose this w) as ->.
  { by eapply dispose_disposed. }
  split; [done|]. unfold hide_listeners, disposed_of. rewrite H1.
  erewrite dispose_live by done. simpl.
  destruct Hw as [Hid Ht Hs]. destruct (Hid _ _ H) as (-> & _ & _).
  split_and!; try done.
  - intros t. by apply no_timer_after_clear.
  - by rewrite (Hs _ _ H), Hd.
  - apply lookup_delete_eq.
Qed.

Lemma dispose_twice_witness :
  proxy (dispose 1 (dispose 1 (run [CreateQuickPick "ext"; Show 1] initial))) =
    proxy (run [CreateQuickPick "ext"; Show 1] initial) ++ [PDispose 1] ∧
  callbacks (dispose 1 (dispose 1 (run [CreateQuickPick "ext"; Show 1] initial)))
    = callbacks (run [CreateQuickPick "ext"; Show 1] initial).
Proof.
  destruct (dispose_twice [CreateQuickPick "ext"; Show 1] 1)
    as (_ & E1 & E2 & _).
  - vm_compute. reflexivity.
  - split; [exact E1|exact E2].
Defined.

(** C3 as stated fails: with a listener subscribed to [onDidHide], two
    calls of [dispose()] produce no "hidden" notification, not one. *)
Lemma dispose_twice_no_hidden_notification :
  hidden_notifications
    (callbacks
       (run [CreateQuickPick "ext"; OnDidHide 1 7; Show 1; Turn;
             Dispose 1; Dispose 1; Turn] initial)) = [] ∧
  length
    (hidden_notifications
       (callbacks
          (run [CreateQuickPick "ext"; OnDidHide 1 7; Show 1; Turn;
                Dispose 1; Dispose 1; Turn] initial))) ≠ 1.
Proof. split; [reflexivity|discriminate]. Qed.

(** ** After disposal *)

Lemma quiet_refl this w : disposed_of this w = Some true → quiet this w w.
Proof. by split. Qed.

Lemma quiet_trans this w1 w2 w3 :
  quiet this w1 w2 → quiet this w2 w3 → quiet this w1 w3.
Proof. intros [? E1] [? E2]. split; [done|]. by rewrite E2. Qed.

Lemma disposed_of_store this r s s' w :
  heap w !! r = Some s → _disposed (super s') = _disposed (super s) →
  disposed_of this (store r s' w) = disposed_of this w.
Proof.
  intros H E. unfold disposed_of. simpl. rewrite lookup_insert.
  case_decide; [subst|done]. rewrite H. simpl. by rewrite E.
Qed.

Lemma quiet_modify this r f w :
  (∀ s, same_core s (f s)) → disposed_of this w = Some true →
  quiet this w (modify r f w).
Proof.
  intros Hf Hd. split; [|done]. destruct (heap w !! r) as [s|] eqn:H.
  - rewrite (modify_store _ _ _ _ H).
    erewrite disposed_of_store; [done..|]. apply Hf.
  - unfold disposed_of in *. simpl. rewrite lookup_alter.
    case_decide; [subst|done]. by rewrite H in *.
Qed.

Lemma quiet_update this r properties w :
  disposed_of this w = Some true → quiet this w (update r properties w).
Proof.
  intros Hd. destruct (heap w !! r) as [s|] eqn:H;
    [|unfold update; rewrite H; by split].
  destruct (_disposed (super s)) eqn:Hds;
    [erewrite update_disposed by done; by split|].
  destruct (_visible (super s)) eqn:Hv.
  - erewrite update_visible by done. split; [|done].
    rewrite <- Hd. unfold disposed_of. simpl. rewrite lookup_insert.
    case_decide; [subst|done]. rewrite H. simpl. done.
  - erewrite update_hidden by done. split; [|done].
    by erewrite disposed_of_store.
Qed.

Lemma quiet_dispose this r w :
  disposed_of this w = Some true → quiet this w (dispose r w).
Proof.
  intros Hd. destruct (heap w !! r) as [s|] eqn:H;
    [|unfold dispose; rewrite H; by split].
  destruct (_disposed (super s)) eqn:Hds;
    [erewrite dispose_disposed by done; by split|].
  erewrite dispose_live by done. split.
  - unfold disposed_of in *. simpl. rewrite lookup_insert.
    case_decide; [done|]. done.
  - simpl. rewrite updates_for_snoc. simpl. apply app_nil_r.
Qed.

Lemma quiet_flush this r w :
  wf w → disposed_of this w = Some true → quiet this w (flush r w).
Proof.
  intros Hw Hd. destruct (decide (r = this)) as [->|Hr].
  - unfold flush. unfold disposed_of in Hd.
    destruct (heap w !! this) as [s|] eqn:H; [|done].
    injection Hd as Hd. rewrite Hd. split; [|done].
    unfold disposed_of. by rewrite H, <- Hd.
  - destruct (flush_other this r w Hw Hr) as [E1 E2]. split; [|done].
    unfold disposed_of in *. by rewrite E1.
Qed.

Lemma quiet_foldl_flush this (l : list (nat * ref)) w :
  wf w → disposed_of this w = Some true →
  quiet this w (foldl (λ w e, flush e.2 w) w l).
Proof.
  revert w. induction l as [|e l IH]; intros w Hw Hd; [by split|].
  simpl. pose proof (quiet_flush this e.2 w Hw Hd) as Hq.
  eapply quiet_trans; [done|]. apply IH; [by apply wf_flush|apply Hq].
Qed.

Lemma quiet_run_timers this w :
  wf w → disposed_of this w = Some true → quiet this w (run_timers w).
Proof.
  intros Hw Hd. unfold run_timers.
  apply (quiet_trans _ _ (with_timers [] (next_timer w) w)); [by split|].
  apply quiet_foldl_flush; [|done].
  destruct Hw as [Hid _ Hs]. split; simpl; [done| |done].
  intros ? ? Hin. by apply not_elem_of_nil in Hin.
Qed.

Lemma quiet_fire_timer this w :
  wf w → disposed_of this w = Some true → quiet this w (fire_timer w).
Proof.
  intros Hw Hd. unfold fire_timer.
  destruct (timers w) as [|e l] eqn:E; [by split|].
  apply (quiet_trans _ _ (with_timers l (next_timer w) w)); [by split|].
  apply quiet_flush; [|done]. apply wf_drop_timers; [done|].
  rewrite E. set_solver.
Qed.

Lemma quiet_construct this extensionId c w :
  wf w → disposed_of this w = Some true →
  quiet this w
    (with_sessions
       (<[(construct extensionId c w).1 := (construct extensionId c w).1]>
          (_sessions (construct extensionId c w).2))
       (construct extensionId c w).2).
Proof.
  intros [Hid _ _] Hd. split; [|done]. unfold disposed_of in *. simpl.
  destruct (heap w !! this) as [s|] eqn:H; [|done].
  destruct (Hid _ _ H) as (_ & Hlt & _).
  rewrite lookup_insert_ne by lia. by rewrite H.
Qed.

Lemma quiet_call_setter this r p w :
  disposed_of this w = Some true → quiet this w (call_setter p r w).
Proof.
  intros Hd. destruct (heap w !! r) as [s|] eqn:H;
    [|unfold call_setter; rewrite H; by split].
  destruct (has_setter (sub s) p) eqn:Hp.
  - erewrite call_setter_eq by done.
    assert (quiet this w (modify r (set_local p) w)) as Hq
      by (apply quiet_modify; [apply set_local_same_core|done]).
    eapply quiet_trans; [exact Hq|]. apply quiet_update, Hq.
  - erewrite call_setter_undeclared by done. by split.
Qed.

Lemma quiet_call_proxy this c w :
  update_id c = None → disposed_of this w = Some true →
  quiet this w (call_proxy c w).
Proof.
  intros Hc Hd. split; [done|]. simpl. rewrite updates_for_snoc, Hc.
  apply app_nil_r.
Qed.

Lemma quiet_visibility this r v w :
  disposed_of this w = Some true →
  quiet this w
    (update r [("visible", VBool v)] (modify r (map_super (with_visible v)) w)).
Proof.
  intros Hd.
  assert (quiet this w (modify r (map_super (with_visible v)) w)) as Hq
    by (by apply quiet_modify).
  eapply quiet_trans; [exact Hq|]. apply quiet_update, Hq.
Qed.

(** Steps that only write to a log or to a slot of [ExtHostQuickOpen]. *)
Local Ltac quiet_log :=
  split; [done|]; simpl; rewrite ?updates_for_snoc; simpl;
  rewrite ?app_nil_r; done.

Lemma quiet_step this o w :
  wf w → disposed_of this w = Some true → quiet this w (step o w).
Proof.
  intros Hw Hd. destruct o; simpl.
  - by apply quiet_construct.
  - by apply quiet_construct.
  - by apply quiet_call_setter.
  - by apply quiet_visibility.
  - by apply quiet_visibility.
  - by apply quiet_dispose.
  - by apply quiet_modify.
  - apply quiet_modify; [|done]. intros s. unfold map_quickPick.
    by destruct (sub s).
  - by apply quiet_run_timers.
  - unfold rpc_onDidSelectItems. repeat case_match; by split.
  - quiet_log.
  - unfold showQuickPick_then. repeat case_match; simplify_eq; quiet_log.
  - unfold rpc_onItemSelected. case_match; by split.
  - quiet_log.
  - unfold rpc_validateInput. case_match; by split.
  - by apply quiet_fire_timer.
Qed.

Lemma quiet_run this ops w :
  wf w → disposed_of this w = Some true → quiet this w (run ops w).
Proof.
  revert w. induction ops as [|o ops IH]; intros w Hw Hd; [by split|].
  simpl. pose proof (quiet_step this o w Hw Hd) as Hq.
  eapply quiet_trans; [done|]. apply IH; [by apply wf_step|apply Hq].
Qed.

(** C4 (as the code has it). Once a session is disposed: none of its flush
    timers is pending; a setter call still assigns the field of the object
    (the getter gives the new value back) when the class declares the
    setter, but stages nothing, sets no timer and calls the host in no way;
    and whatever happens afterwards, no further [$createOrUpdate] is sent
    for the session. *)
Theorem after_dispose ops this :
  disposed_of this (run ops initial) = Some true →
  (∀ t, (t, this) ∉ timers (run ops initial)) ∧
  (∀ p,
     call_setter p this (run ops initial) =
       (if declares this (run ops initial) p
        then modify this (set_local p) (run ops initial)
        else run ops initial) ∧
     pending_of this (call_setter p this (run ops initial)) =
       pending_of this (run ops initial) ∧
     timers (call_setter p this (run ops initial)) = timers (run ops initial) ∧
     proxy (call_setter p this (run ops initial)) = proxy (run ops initial) ∧
     callbacks (call_setter p this (run ops initial)) =
       callbacks (run ops initial)) ∧
  (∀ ops',
     disposed_of this (run ops' (run ops initial)) = Some true ∧
     updates_for this (proxy (run ops' (run ops initial))) =
       updates_for this (proxy (run ops initial))).
Proof.
  pose proof (wf_reachable ops) as Hw. set (w := run ops initial) in *.
  intros Hd. split_and!.
  - intros t Hin. destruct Hw as [_ Ht _].
    destruct (Ht _ _ Hin) as (_ & x & Hx & _ & Hxd).
    unfold disposed_of in Hd. rewrite Hx in Hd. simpl in Hd. congruence.
  - intros p. unfold disposed_of, declares, pending_of in *.
    destruct (heap w !! this) as [s|] eqn:H; [|done]. injection Hd as Hd.
    assert (call_setter p this w =
            if has_setter (sub s) p then modify this (set_local p) w else w)
      as ->.
    { destruct (has_setter (sub s) p) eqn:Hp.
      - erewrite call_setter_eq by done.
        apply (update_disposed _ _ _ (set_local p s)).
        * by rewrite modify_lookup, H.
        * destruct (set_local_fields p s) as (_ & -> & _). done.
      - by erewrite call_setter_undeclared. }
    destruct (has_setter (sub s) p); [|by rewrite H].
    rewrite modify_lookup, H. simpl.
    destruct (set_local_fields p s) as (_ & _ & -> & _). done.
  - intros ops'. by apply quiet_run.
Qed.

Lemma after_dispose_witness :
  updates_for 1
    (proxy (run [Set_ 1 (SetValue "x"); Show 1; Turn]
              (run [CreateQuickPick "ext"; Show 1; Dispose 1] initial))) =
  updates_for 1 (proxy (run [CreateQuickPick "ext"; Show 1; Dispose 1] initial)).
Proof.
  destruct (after_dispose [CreateQuickPick "ext"; Show 1; Dispose 1] 1)
    as (_ & _ & E).
  - vm_compute. reflexivity.
  - apply (E [Set_ 1 (SetValue "x"); Show 1; Turn]).
Defined.

(** C4 as stated fails: after [dispose()], [enabled = false] is not a
    no-op, the object changes and the getter reads [false]. *)
Lemma setter_after_dispose_changes_state :
  disposed_of 1 (run [CreateQuickPick "ext"; Dispose 1] initial) = Some true ∧
  get_enabled 1 (run [CreateQuickPick "ext"; Dispose 1] initial) = Some true ∧
  get_enabled 1
    (set_enabled false 1 (run [CreateQuickPick "ext"; Dispose 1] initial)) =
    Some false ∧
  set_enabled false 1 (run [CreateQuickPick "ext"; Dispose 1] initial) ≠
    run [CreateQuickPick "ext"; Dispose 1] initial.
Proof.
  split_and!; [reflexivity..|]. intros E.
  apply (f_equal (get_enabled 1)) in E. discriminate E.
Qed.

(** ** [hide] *)

(** [hide()] clears the flag before it calls [update], so [update] returns
    at its visibility test: no timer is set and the host is not called. *)
Lemma hide_sets_no_timer this w :
  timers (hide this w) = timers w ∧ proxy (hide this w) = proxy w.
Proof.
  unfold hide. destruct (heap w !! this) as [s|] eqn:H.
  - rewrite (modify_store _ _ _ _ H).
    set (s1 := map_super (with_visible false) s).
    assert (heap (store this s1 w) !! this = Some s1) as H1
      by apply lookup_insert_eq.
    destruct (_disposed (super s1)) eqn:Hd.
    + by erewrite update_disposed.
    + by erewrite update_hidden.
  - unfold update. simpl. rewrite lookup_alter_eq, H. done.
Qed.

(** With no flush pending, [hide()] and the end of the turn send nothing
    for the session. *)
Lemma hide_then_turn_sends_nothing this w :
  wf w → (∀ t, (t, this) ∉ timers w) →
  updates_for this (proxy (run_timers (hide this w))) =
    updates_for this (proxy w).
Proof.
  intros Hw Hno. pose proof (wf_step (Hide this) w Hw) as Hw1. simpl in Hw1.
  destruct (hide_sets_no_timer this w) as [Et Ex].
  unfold run_timers.
  assert (wf (with_timers [] (next_timer (hide this w)) (hide this w))) as Hw0.
  { destruct Hw1 as [Hid _ Hs]. split; simpl; [done| |done].
    intros ? ? Hin. by apply not_elem_of_nil in Hin. }
  destruct (foldl_flush_others this (timers (hide this w)) _ Hw0)
    as (_ & E & _).
  - rewrite Et. apply Forall_forall. intros [t r] Hin E. simpl in E.
    subst r. by apply (Hno t).
  - rewrite E. simpl. by rewrite Ex.
Qed.

(** C2, the code at the failing input. A quick pick is shown and the turn
    ends, so that the host has [visible: true] and no flush is pending;
    then [hide()] is called on the visible session and the turn ends.
    [visible: false] is staged, no timer is set, and the host receives
    nothing: the log of proxy calls is what it was before [hide()]. *)
Theorem hide_is_not_delivered :
  visible_of 1 (run [CreateQuickPick "ext"; Show 1; Turn] initial) = Some true ∧
  timers (run [CreateQuickPick "ext"; Show 1; Turn] initial) = [] ∧
  visible_of 1 (run [CreateQuickPick "ext"; Show 1; Turn; Hide 1] initial) =
    Some false ∧
  (pending_of 1 (run [CreateQuickPick "ext"; Show 1; Turn; Hide 1] initial) ≫=
     (λ b, b !! "visible")) = Some (VBool false) ∧
  timers (run [CreateQuickPick "ext"; Show 1; Turn; Hide 1] initial) = [] ∧
  proxy (run [CreateQuickPick "ext"; Show 1; Turn; Hide 1; Turn] initial) =
    proxy (run [CreateQuickPick "ext"; Show 1; Turn] initial) ∧
  (pending_of 1
     (run [CreateQuickPick "ext"; Show 1; Turn; Hide 1; Turn] initial) ≫=
     (λ b, b !! "visible")) = Some (VBool false).
Proof. split_and!; vm_compute; reflexivity. Qed.

(** ** One-shot quick picks *)

Lemma showQuickPick_clears options w :
  _onDidSelectItem (showQuickPick options w) = None.
Proof. reflexivity. Qed.

(** The error handler of the continuation, [(err) => ...], taken alone:
    entered with a key other than ['0'] and a rejected item list it calls
    [$setError(err)] and rejects with the same [err]. This is what the code
    sets out to do; whether the continuation is ever entered that way is
    for the race to decide. *)
Lemma error_handler_reports_then_rethrows options key quickPickWidget err w :
  key ≠ "0" →
  showQuickPick_then options key (Rejected err) quickPickWidget w =
    (Rejected err, call_proxy (PSetError err) w).
Proof.
  intros Hk. unfold showQuickPick_then.
  destruct (String.eqb key "0") eqn:E; [|done].
  by apply String.eqb_eq in E.
Qed.

(** C6, the code at the failing input. The item list is rejected with
    [err]. When the race [TPromise.any] is rejected, the continuation does
    not run: the host is not called, so [$setError] is not sent, and the
    caller is rejected with the rejection of the race, which is not [err].
    When the race was fulfilled by the host's promise (key ['0']) the
    caller gets [undefined] and again nothing is sent. [$setError] is sent
    only if the race is fulfilled with a key other than ['0'], that is only
    if the chain is told that the item list won the race by being
    fulfilled. *)
Theorem rejected_items_are_not_reported options quickPickWidget err w :
  (∀ key,
     showQuickPick_promise options (AnyRejected key) (Rejected err)
       quickPickWidget w = (PickRejectedByAny key, w) ∧
     (showQuickPick_promise options (AnyRejected key) (Rejected err)
        quickPickWidget w).1 ≠ PickRejected err ∧
     proxy (showQuickPick_promise options (AnyRejected key) (Rejected err)
              quickPickWidget w).2 = proxy w) ∧
  showQuickPick_promise options (AnyFulfilled "0") (Rejected err)
    quickPickWidget w = (PickFulfilled PickUndefined, w) ∧
  (∀ any,
     (showQuickPick_promise options any (Rejected err) quickPickWidget w).2
       ≠ w →
     ∃ key, any = AnyFulfilled key ∧ key ≠ "0").
Proof.
  split_and!.
  - intros key. by split_and!.
  - done.
  - intros [key|key]; simpl; [|done].
    unfold showQuickPick_then. destruct (String.eqb key "0") eqn:E; [done|].
    intros _. exists key. split; [done|]. intros ->. discriminate E.
Qed.

(** When the host's promise won the race (key ['0'], the picker was
    dismissed before the items failed), a rejected item list is neither
    reported with [$setError] nor passed to the caller, who gets
    [undefined]. *)
Lemma rejected_items_swallowed_when_widget_first :
  (showQuickPick_then None "0" (Rejected "boom") (Fulfilled HandleOther)
     (showQuickPick None initial)).1 = Fulfilled PickUndefined ∧
  (showQuickPick_then None "0" (Rejected "boom") (Fulfilled HandleOther)
     (showQuickPick None initial)).1 ≠ Rejected "boom" ∧
  PSetError "boom" ∉
    proxy (showQuickPick_then None "0" (Rejected "boom") (Fulfilled HandleOther)
             (showQuickPick None initial)).2.
Proof.
  split_and!; [reflexivity|discriminate|].
  simpl. rewrite list_elem_of_singleton. discriminate.
Qed.

(** ** Items and handles of a quick pick *)

(** What [update] leaves alone: the registry, the logs of callbacks, and
    the subclass part of every object. *)
Lemma update_frame this properties w :
  _sessions (update this properties w) = _sessions w ∧
  callbacks (update this properties w) = callbacks w ∧
  _validateInput (update this properties w) = _validateInput w ∧
  ∀ r s, heap w !! r = Some s →
    ∃ s', heap (update this properties w) !! r = Some s' ∧ sub s' = sub s.
Proof.
  destruct (heap w !! this) as [s|] eqn:H;
    [|unfold update; rewrite H; split_and!; eauto].
  destruct (_disposed (super s)) eqn:Hd;
    [erewrite update_disposed by done; split_and!; eauto|].
  destruct (_visible (super s)) eqn:Hv.
  - erewrite update_visible by done. simpl. split_and!; try done.
    intros r x Hx. rewrite lookup_insert. case_decide; [subst|eauto].
    eexists. split; [done|]. simpl. congruence.
  - erewrite update_hidden by done. simpl. split_and!; try done.
    intros r x Hx. rewrite lookup_insert. case_decide; [subst|eauto].
    eexists. split; [done|]. simpl. congruence.
Qed.

Lemma set_items_object items this w s q :
  heap w !! this = Some s → sub s = QuickPickFields q →
  ∃ s', heap (QuickPick.set_items items this w) !! this = Some s' ∧
    sub s' =
      QuickPickFields
        (ExtHostQuickPick.with_items items (map_seq 0 items) q) ∧
    _sessions (QuickPick.set_items items this w) = _sessions w ∧
    callbacks (QuickPick.set_items items this w) = callbacks w.
Proof.
  intros H Hq. unfold QuickPick.set_items.
  rewrite (modify_store _ _ _ _ H).
  set (w1 := store this _ w).
  destruct (update_frame this
              [("items", VItems (imap transfer_item items))] w1)
    as (E1 & E2 & _ & Hsub).
  destruct (Hsub this _ (lookup_insert_eq _ _ _)) as (s' & Hs' & Esub).
  exists s'. split; [done|]. rewrite Esub, E1, E2.
  unfold map_quickPick. by rewrite Hq.
Qed.

(** C7. Assigning [items] on a quick pick that is not disposed: the stored
    list is the assigned one; the table maps a handle to the item at that
    index of the assigned list and knows no other handle; and the buffer
    holds under ["items"] a list as long as the assigned one, whose entry
    [i] is made of the label, description, detail and picked flag of item
    [i] and of the handle [i], and of nothing else of the item. *)
Theorem items_assignment items this w :
  is_Some (get_items this w) → disposed_of this w = Some false →
  get_items this (QuickPick.set_items items this w) = Some items ∧
  (∃ table,
     get_handlesToItems this (QuickPick.set_items items this w) = Some table ∧
     ∀ handle, table !! handle = items !! handle) ∧
  ∃ view,
    (pending_of this (QuickPick.set_items items this w) ≫=
       (λ b, b !! "items")) = Some (VItems view) ∧
    length view = length items ∧
    ∀ i, view !! i =
         (λ item,
            {| t_label := label item; t_description := description item;
               t_handle := i; t_detail := detail item;
               t_picked := picked item |}) <$> items !! i.
Proof.
  unfold get_items at 1, disposed_of.
  destruct (heap w !! this) as [s|] eqn:H; simpl; [|by intros [? [=]]].
  destruct (sub s) as [q|] eqn:Hq; [|by intros [? [=]]].
  intros _ [= Hd].
  destruct (set_items_object items this w s q H Hq) as (s' & Hs' & Esub & _).
  unfold get_items, get_handlesToItems, pending_of. rewrite Hs'. simpl.
  rewrite Esub. split; [done|]. split.
  - eexists. split; [done|]. intros handle. simpl. apply lookup_map_seq_0.
  - exists (imap transfer_item items).
    split; [|split; [apply length_imap|intros i; apply list_lookup_imap]].
    revert Hs'. unfold QuickPick.set_items.
    rewrite (modify_store _ _ _ _ H).
    set (s1 := map_quickPick _ s).
    assert (heap (store this s1 w) !! this = Some s1) as H1
      by apply lookup_insert_eq.
    assert (_disposed (super s1) = false) as Hd1.
    { unfold s1, map_quickPick. by rewrite Hq. }
    assert (_pendingUpdate (super s1) = _pendingUpdate (super s)) as Ep.
    { unfold s1, map_quickPick. by rewrite Hq. }
    destruct (_visible (super s1)) eqn:Hv.
    + erewrite update_visible by done. simpl. rewrite lookup_insert_eq.
      intros [= <-]. simpl. apply lookup_insert_eq.
    + erewrite update_hidden by done. simpl. rewrite lookup_insert_eq.
      intros [= <-]. simpl. apply lookup_insert_eq.
Qed.

Lemma items_assignment_witness :
  get_items 1
    (QuickPick.set_items
       [{| label := "eins"; description := None; detail := Some "d";
           picked := None; extra := [("secret", "x")] |}] 1
       (createQuickPick "ext" initial).2) =
  Some [{| label := "eins"; description := None; detail := Some "d";
           picked := None; extra := [("secret", "x")] |}].
Proof.
  apply (items_assignment
           [{| label := "eins"; description := None; detail := Some "d";
               picked := None; extra := [("secret", "x")] |}] 1
           (createQuickPick "ext" initial).2).
  - vm_compute. eauto.
  - vm_compute. reflexivity.
Defined.

(** C8 (as the code has it). After a list is assigned to a registered
    quick pick, a selection notification resolves each handle against the
    new list and only against it: the listeners get, for each handle, the
    item at that index of the new list, and [undefined] for a handle beyond
    its end. *)
Theorem handles_resolve_in_new_list items handles this w :
  _sessions w !! this = Some this → is_Some (get_items this w) →
  ∃ ls,
    selection_listeners this w = Some ls ∧
    callbacks
      (rpc_onDidSelectItems this handles (QuickPick.set_items items this w)) =
    callbacks w ++
      ((λ l, DidSelectionChange l ((λ h, items !! h) <$> handles)) <$> ls) ∧
    Forall (λ h : nat, (length items ≤ h)%nat → items !! h = None) handles.
Proof.
  unfold get_items, selection_listeners.
  destruct (heap w !! this) as [s|] eqn:H; simpl; [|by intros _ [? [=]]].
  destruct (sub s) as [q|] eqn:Hq; [|by intros _ [? [=]]].
  intros Hreg _.
  destruct (set_items_object items this w s q H Hq)
    as (s' & Hs' & Esub & Ereg & Ecb).
  eexists. split; [done|]. split.
  - unfold rpc_onDidSelectItems. rewrite Ereg, Hreg, Hs', Esub.
    unfold QuickPick._fireDidSelectionChange, Emitter_fire. simpl.
    rewrite Ecb. f_equal. apply list_fmap_ext. intros i l _. f_equal.
    apply list_fmap_ext. intros j h _. apply lookup_map_seq_0.
  - apply Forall_forall. intros h _ Hh. by apply lookup_ge_None.
Qed.

Lemma handles_resolve_in_new_list_witness :
  ∃ ls,
    selection_listeners 1
      (run [CreateQuickPick "ext"; OnDidSelectionChange 1 5] initial) =
      Some ls ∧
    callbacks
      (rpc_onDidSelectItems 1 [0; 3]
         (QuickPick.set_items
            [{| label := "a"; description := None; detail := None;
                picked := None; extra := [] |}] 1
            (run [CreateQuickPick "ext"; OnDidSelectionChange 1 5] initial))) =
    callbacks (run [CreateQuickPick "ext"; OnDidSelectionChange 1 5] initial) ++
      ((λ l,
          DidSelectionChange l
            ((λ h,
                [{| label := "a"; description := None; detail := None;
                    picked := None; extra := [] |}] !! h) <$> [0; 3])) <$> ls).
Proof.
  destruct (handles_resolve_in_new_list
              [{| label := "a"; description := None; detail := None;
                  picked := None; extra := [] |}] [0; 3] 1
              (run [CreateQuickPick "ext"; OnDidSelectionChange 1 5] initial))
    as (ls & E1 & E2 & _).
  - vm_compute. reflexivity.
  - vm_compute. eauto.
  - exists ls. split; [exact E1|exact E2].
Defined.

(** C8 as stated fails: handle [0], sent for the first item of the old
    list, is resolved after the reassignment to the first item of the new
    list. *)
Lemma stale_handle_resolves_to_new_item :
  callbacks
    (run [CreateQuickPick "ext"; OnDidSelectionChange 1 5;
          Set_ 1 (SetItems
                    [{| label := "old0"; description := None; detail := None;
                        picked := None; extra := [] |};
                     {| label := "old1"; description := None; detail := None;
                        picked := None; extra := [] |}]);
          Show 1; Turn;
          Set_ 1 (SetItems
                    [{| label := "new0"; description := None; detail := None;
                        picked := None; extra := [] |}]);
          HostDidSelectItems 1 [0]] initial) =
  [DidSelectionChange 5
     [Some {| label := "new0"; description := None; detail := None;
              picked := None; extra := [] |}]].
Proof. vm_compute. reflexivity. Qed.

(** ** The validator slot *)

Lemma validateInput_dispose this w :
  _validateInput (dispose this w) = _validateInput w.
Proof.
  destruct (heap w !! this) as [s|] eqn:H;
    [|by unfold dispose; rewrite H].
  destruct (_disposed (super s)) eqn:Hd;
    [by erewrite dispose_disposed|by erewrite dispose_live].
Qed.

Lemma validateInput_flush this w :
  _validateInput (flush this w) = _validateInput w.
Proof. unfold flush. by repeat case_match. Qed.

Lemma validateInput_run_timers w :
  _validateInput (run_timers w) = _validateInput w.
Proof.
  unfold run_timers.
  change (_validateInput w)
    with (_validateInput (with_timers [] (next_timer w) w)).
  generalize (with_timers [] (next_timer w) w).
  induction (timers w) as [|e l IH]; intros w0; [done|].
  simpl. by rewrite IH, validateInput_flush.
Qed.

Lemma validateInput_update this properties w :
  _validateInput (update this properties w) = _validateInput w.
Proof. by destruct (update_frame this properties w) as (_ & _ & -> & _). Qed.

Lemma validateInput_call_setter p this w :
  _validateInput (call_setter p this w) = _validateInput w.
Proof.
  destruct (heap w !! this) as [s|] eqn:H;
    [|by unfold call_setter; rewrite H].
  destruct (has_setter (sub s) p) eqn:Hp.
  - erewrite call_setter_eq by done. by rewrite validateInput_update.
  - by erewrite call_setter_undeclared.
Qed.

Lemma validateInput_fire_timer w :
  _validateInput (fire_timer w) = _validateInput w.
Proof.
  unfold fire_timer. destruct (timers w); [done|].
  by rewrite validateInput_flush.
Qed.

(** Only [showInput] writes the slot. *)
Lemma validateInput_step o w :
  is_ShowInput o = false → _validateInput (step o w) = _validateInput w.
Proof.
  intros Ho. destruct o; try discriminate Ho; cbn [step]; try done.
  - apply validateInput_call_setter.
  - unfold show. by rewrite validateInput_update.
  - unfold hide. by rewrite validateInput_update.
  - apply validateInput_dispose.
  - apply validateInput_run_timers.
  - unfold rpc_onDidSelectItems. by repeat case_match.
  - unfold showQuickPick_then. by repeat case_match.
  - unfold rpc_onItemSelected. by case_match.
  - unfold rpc_validateInput. by case_match.
  - apply validateInput_fire_timer.
Qed.

Lemma validateInput_run ops w :
  Forall (λ o, is_ShowInput o = false) ops →
  _validateInput (run ops w) = _validateInput w.
Proof.
  intros Hops. revert w. induction Hops as [|o ops Ho _ IH]; intros w; [done|].
  simpl. by rewrite IH, validateInput_step.
Qed.

(** C9. There is one validator slot. Every [showInput] overwrites it with
    the [validateInput] of its own options ([undefined] when there is
    none) and tells the host whether there is one. After a first request,
    anything in between, a second request, and any steps that are not a
    further [showInput], [$validateInput] calls the validator of the second
    request and no other, or returns [undefined] without calling anyone
    when the second request has none. *)
Theorem single_validator_slot o1 mid o2 later input w :
  Forall (λ o, is_ShowInput o = false) later →
  (∀ o w0,
     _validateInput (showInput o w0) = o ≫= InputBoxOptions.validateInput ∧
     proxy (showInput o w0) =
       proxy w0 ++
       [PInput o (bool_decide (is_Some (o ≫= InputBoxOptions.validateInput)))]) ∧
  _validateInput (run later (showInput o2 (run mid (showInput o1 w)))) =
    o2 ≫= InputBoxOptions.validateInput ∧
  rpc_validateInput input
    (run later (showInput o2 (run mid (showInput o1 w)))) =
    match o2 ≫= InputBoxOptions.validateInput with
    | Some v =>
      (Some (validate v input),
       call_back [ValidateInput (validator_id v) input]
         (run later (showInput o2 (run mid (showInput o1 w)))))
    | None => (None, run later (showInput o2 (run mid (showInput o1 w))))
    end.
Proof.
  intros Hl. split; [done|].
  assert (_validateInput (run later (showInput o2 (run mid (showInput o1 w))))
          = o2 ≫= InputBoxOptions.validateInput) as E.
  { by rewrite validateInput_run. }
  split; [done|]. unfold rpc_validateInput. by rewrite E.
Qed.

Lemma single_validator_slot_witness :
  (rpc_validateInput "abc"
     (run [CreateQuickPick "ext"; Show 1; Turn]
        (showInput
           (Some {| InputBoxOptions.value := None;
                    InputBoxOptions.prompt := None;
                    InputBoxOptions.placeHolder := None;
                    InputBoxOptions.password := None;
                    InputBoxOptions.ignoreFocusOut := None;
                    InputBoxOptions.validateInput :=
                      Some {| validator_id := 2;
                              validate := λ _, Fulfilled None |} |})
           (run []
              (showInput
                 (Some {| InputBoxOptions.value := None;
                          InputBoxOptions.prompt := None;
                          InputBoxOptions.placeHolder := None;
                          InputBoxOptions.password := None;
                          InputBoxOptions.ignoreFocusOut := None;
                          InputBoxOptions.validateInput :=
                            Some {| validator_id := 1;
                                    validate := λ i, Fulfilled (Some i) |} |})
                 initial))))).1 = Some (Fulfilled None).
Proof.
  destruct (single_validator_slot
    (Some {| InputBoxOptions.value := None;
             InputBoxOptions.prompt := None;
             InputBoxOptions.placeHolder := None;
             InputBoxOptions.password := None;
             InputBoxOptions.ignoreFocusOut := None;
             InputBoxOptions.validateInput :=
               Some {| validator_id := 1;
                       validate := λ i, Fulfilled (Some i) |} |})
    []
    (Some {| InputBoxOptions.value := None;
             InputBoxOptions.prompt := None;
             InputBoxOptions.placeHolder := None;
             InputBoxOptions.password := None;
             InputBoxOptions.ignoreFocusOut := None;
             InputBoxOptions.validateInput :=
               Some {| validator_id := 2;
                       validate := λ _, Fulfilled None |} |})
    [CreateQuickPick "ext"; Show 1; Turn] "abc" initial)
    as (_ & _ & E).
  - repeat constructor.
  - rewrite E. reflexivity.
Defined.

(** ** The selection handler of one-shot picks *)

(** C10, the code at the failing input. A first [showQuickPick] is given a
    promise of items and callback 1; a second [showQuickPick], with
    callback 2, follows before the promise resolves, and its items arrive;
    then the promise of the first call resolves and its continuation runs.
    The handler in the slot is now the one of the first call, and a
    [$onItemSelected(0)] is delivered to callback 1 with the first item of
    the first list. *)
Theorem late_items_reinstall_first_handler :
  callbacks
    (run
       [ShowQuickPick
          (Some {| QuickPickOptions.placeHolder := None;
                   QuickPickOptions.matchOnDescription := None;
                   QuickPickOptions.matchOnDetail := None;
                   QuickPickOptions.ignoreFocusOut := None;
                   QuickPickOptions.canPickMany := None;
                   QuickPickOptions.onDidSelectItem := Some 1 |});
        ShowQuickPick
          (Some {| QuickPickOptions.placeHolder := None;
                   QuickPickOptions.matchOnDescription := None;
                   QuickPickOptions.matchOnDetail := None;
                   QuickPickOptions.ignoreFocusOut := None;
                   QuickPickOptions.canPickMany := None;
                   QuickPickOptions.onDidSelectItem := Some 2 |});
        PickThen
          (Some {| QuickPickOptions.placeHolder := None;
                   QuickPickOptions.matchOnDescription := None;
                   QuickPickOptions.matchOnDetail := None;
                   QuickPickOptions.ignoreFocusOut := None;
                   QuickPickOptions.canPickMany := None;
                   QuickPickOptions.onDidSelectItem := Some 2 |})
          "1" (Fulfilled [ItemString "second"]) (Fulfilled HandleOther);
        PickThen
          (Some {| QuickPickOptions.placeHolder := None;
                   QuickPickOptions.matchOnDescription := None;
                   QuickPickOptions.matchOnDetail := None;
                   QuickPickOptions.ignoreFocusOut := None;
                   QuickPickOptions.canPickMany := None;
                   QuickPickOptions.onDidSelectItem := Some 1 |})
          "1" (Fulfilled [ItemString "first"]) (Fulfilled HandleOther);
        HostItemSelected 0] initial) =
  [DidSelectItem 1 (Some (ItemString "first"))].
Proof. reflexivity. Qed.

(** ** More on well-formed worlds *)

Lemma more_initial : wf_more initial.
Proof.
  split; simpl.
  - constructor.
  - intros r s t H. by rewrite lookup_empty in H.
  - intros r r' s s' t H. by rewrite lookup_empty in H.
  - intros i r H. by rewrite lookup_empty in H.
  - intros m H. by apply not_elem_of_nil in H.
Qed.

Lemma more_store this s s' w :
  wf_more w → heap w !! this = Some s →
  _updateTimeout (super s') = _updateTimeout (super s) →
  _disposed (super s') = _disposed (super s) →
  wf_more (store this s' w).
Proof.
  intros [Hn Hb Hu Hr Hl] H Et Ed. split; simpl; [done| | | |].
  - intros r x t. rewrite lookup_insert. case_decide as E; [|apply Hb].
    subst r. intros [= <-]. rewrite Et. by eapply Hb.
  - intros r r' x x' t. rewrite !lookup_insert.
    case_decide as E; case_decide as E'; subst.
    + done.
    + intros [= <-] Hx'. rewrite Et. intros H1 H2. by eapply Hu.
    + intros Hx [= <-]. rewrite Et. intros H1 H2. by eapply Hu.
    + apply Hu.
  - intros i r Hi. destruct (Hr _ _ Hi) as (-> & x & Hx & Hd).
    split; [done|]. rewrite lookup_insert. case_decide as E; [|by exists x].
    subst i. exists s'. split; [done|]. rewrite Ed. congruence.
  - intros m Hin. destruct (Hl _ Hin) as (i & ? & ?). exists i.
    split; [done|]. rewrite lookup_insert_is_Some'. by right.
Qed.

Lemma more_update this properties w :
  wf w → wf_more w → wf_more (update this properties w).
Proof.
  intros Hw Hm.
  destruct (heap w !! this) as [s|] eqn:H;
    [|by unfold update; rewrite H].
  destruct (_disposed (super s)) eqn:Hd; [by erewrite update_disposed|].
  destruct (_visible (super s)) eqn:Hv;
    [|erewrite update_hidden by done; by eapply more_store].
  erewrite update_visible by done.
  destruct Hw as [Hid Ht Hs]. destruct Hm as [Hn Hb Hu Hr Hl].
  split; simpl.
  - apply NoDup_app. split_and!.
    + destruct (_updateTimeout (super s)); [by apply NoDup_filter|done].
    + intros [t r] Hin. rewrite list_elem_of_singleton. intros [= -> ->].
      apply elem_of_cleared in Hin as [Hin _].
      destruct (Ht _ _ Hin) as [Hlt _]. lia.
    + apply NoDup_singleton.
  - intros r x t. rewrite lookup_insert. case_decide as E.
    + subst r. intros [= <-]. simpl. intros [= <-]. lia.
    + intros Hx Hxt. pose proof (Hb _ _ _ Hx Hxt). lia.
  - intros r r' x x' t. rewrite !lookup_insert.
    case_decide as E; case_decide as E'; subst; [done| | |apply Hu].
    + intros [= <-] Hx'. simpl. intros [= <-] Hx't.
      pose proof (Hb _ _ _ Hx' Hx't). lia.
    + intros Hx [= <-] Hxt. simpl. intros [= <-].
      pose proof (Hb _ _ _ Hx Hxt). lia.
  - intros i r Hi. destruct (Hr _ _ Hi) as (-> & x & Hx & Hxd).
    split; [done|]. rewrite lookup_insert. case_decide as E; [|by exists x].
    subst i. eexists. split; [done|]. done.
  - intros m Hin. destruct (Hl _ Hin) as (i & ? & ?). exists i.
    split; [done|]. rewrite lookup_insert_is_Some'. by right.
Qed.

Lemma more_dispose this w : wf w → wf_more w → wf_more (dispose this w).
Proof.
  intros Hw Hm.
  destruct (heap w !! this) as [s|] eqn:H;
    [|by unfold dispose; rewrite H].
  destruct (_disposed (super s)) eqn:Hd; [by erewrite dispose_disposed|].
  erewrite dispose_live by done.
  destruct Hw as [Hid Ht Hs]. destruct Hm as [Hn Hb Hu Hr Hl].
  destruct (Hid _ _ H) as (Ei & _ & _).
  split; simpl.
  - destruct (_updateTimeout (super s)); [by apply NoDup_filter|done].
  - intros r x t. rewrite lookup_insert. case_decide as E; [|apply Hb].
    subst r. intros [= <-]. simpl. by eapply Hb.
  - intros r r' x x' t. rewrite !lookup_insert.
    case_decide as E; case_decide as E'; subst; [done| | |apply Hu].
    + intros [= <-] Hx'. simpl. intros H1 H2. by eapply Hu.
    + intros Hx [= <-]. simpl. intros H1 H2. by eapply Hu.
  - rewrite Ei. intros i r. rewrite lookup_delete. case_decide as E; [done|].
    intros Hi. destruct (Hr _ _ Hi) as (-> & x & Hx & Hxd).
    split; [done|]. exists x. by rewrite lookup_insert_ne.
  - intros m. rewrite elem_of_app, list_elem_of_singleton.
    intros [Hin|[=]]. destruct (Hl _ Hin) as (i & ? & ?). exists i.
    split; [done|]. rewrite lookup_insert_is_Some'. by right.
Qed.

Lemma more_flush this w : wf w → wf_more w → wf_more (flush this w).
Proof.
  intros Hw Hm. unfold flush.
  destruct (heap w !! this) as [s|] eqn:H; [|done].
  destruct (_disposed (super s)) eqn:Hd; [done|].
  apply (more_store this s); [|done..].
  destruct Hm as [Hn Hb Hu Hr Hl]. split; simpl; [done..|].
  intros m. rewrite elem_of_app, list_elem_of_singleton.
  intros [Hin|[= ->]]; [by apply Hl|].
  destruct Hw as [Hid _ _]. destruct (Hid _ _ H) as (_ & ? & ?).
  exists this. by rewrite H.
Qed.

Lemma more_foldl_flush (l : list (nat * ref)) w :
  wf w → wf_more w → wf_more (foldl (λ w e, flush e.2 w) w l).
Proof.
  revert w. induction l as [|e l IH]; intros w Hw Hm; [done|].
  simpl. apply IH; [by apply wf_flush|by apply more_flush].
Qed.

Lemma more_drop_timers l w :
  wf_more w → NoDup l → wf_more (with_timers l (next_timer w) w).
Proof. intros [Hn Hb Hu Hr Hl] Hnl. by split. Qed.

Lemma more_run_timers w : wf w → wf_more w → wf_more (run_timers w).
Proof.
  intros Hw Hm. apply more_foldl_flush.
  - apply wf_drop_timers; [done|]. apply list_subseteq_nil.
  - apply more_drop_timers; [done|constructor].
Qed.

Lemma more_fire_timer w : wf w → wf_more w → wf_more (fire_timer w).
Proof.
  intros Hw Hm. unfold fire_timer.
  destruct (timers w) as [|e l] eqn:E; [done|].
  apply more_flush.
  - apply wf_drop_timers; [done|]. rewrite E. set_solver.
  - apply more_drop_timers; [done|].
    destruct Hm as [Hn _ _ _ _]. rewrite E in Hn. by apply NoDup_cons in Hn as [_ ?].
Qed.

Lemma more_construct extensionId c w :
  wf w → wf_more w →
  wf_more
    (with_sessions
       (<[(construct extensionId c w).1 := (construct extensionId c w).1]>
          (_sessions (construct extensionId c w).2))
       (construct extensionId c w).2).
Proof.
  intros [Hid Ht Hs] [Hn Hb Hu Hr Hl]. split; simpl; [done| | | |].
  - intros r x t. rewrite lookup_insert. case_decide as E; [|apply Hb].
    subst r. by intros [= <-].
  - intros r r' x x' t. rewrite !lookup_insert.
    case_decide as E; case_decide as E'; subst; [done| | |apply Hu].
    + by intros [= <-].
    + by intros ? [= <-].
  - intros i r. rewrite lookup_insert. case_decide as E.
    + subst i. intros [= <-]. split; [done|].
      eexists. by rewrite lookup_insert_eq.
    + intros Hi. destruct (Hr _ _ Hi) as (-> & x & Hx & Hxd).
      split; [done|]. exists x. by rewrite lookup_insert_ne.
  - intros m Hin. destruct (Hl _ Hin) as (i & ? & ?). exists i.
    split; [done|]. rewrite lookup_insert_is_Some'. by right.
Qed.

Lemma more_modify this f w :
  (∀ s, same_core s (f s)) → wf_more w → wf_more (modify this f w).
Proof.
  intros Hf Hm. destruct (heap w !! this) as [s|] eqn:E.
  - rewrite (modify_store _ _ _ _ E).
    destruct (Hf s) as (_ & ? & _ & ?). by eapply more_store.
  - replace (modify this f w) with w; [done|].
    destruct w. unfold modify, with_heap. simpl in *. f_equal.
    symmetry. apply map_eq. intros i. rewrite lookup_alter.
    case_decide; [subst|done]. by rewrite E.
Qed.

Lemma more_call_proxy c w :
  (∀ m, c ≠ PCreateOrUpdate m) → wf_more w → wf_more (call_proxy c w).
Proof.
  intros Hc [Hn Hb Hu Hr Hl]. split; simpl; [done..|].
  intros m. rewrite elem_of_app, list_elem_of_singleton.
  intros [Hin|E]; [by apply Hl|]. by destruct (Hc m).
Qed.

Lemma more_call_setter p this w :
  wf w → wf_more w → wf_more (call_setter p this w).
Proof.
  intros Hw Hm. destruct (heap w !! this) as [s|] eqn:H;
    [|by unfold call_setter; rewrite H].
  destruct (has_setter (sub s) p) eqn:Hp.
  - erewrite call_setter_eq by done. apply more_update.
    + apply wf_modify; [apply set_local_same_core|done].
    + apply more_modify; [apply set_local_same_core|done].
  - by erewrite call_setter_undeclared.
Qed.

Lemma more_step o w : wf w → wf_more w → wf_more (step o w).
Proof.
  intros Hw Hm. destruct o; cbn [step].
  - by apply more_construct.
  - by apply more_construct.
  - by apply more_call_setter.
  - apply more_update; [by apply wf_modify|by apply more_modify].
  - apply more_update; [by apply wf_modify|by apply more_modify].
  - by apply more_dispose.
  - by apply more_modify.
  - apply more_modify; [|done]. intros s. unfold map_quickPick.
    by destruct (sub s).
  - by apply more_run_timers.
  - unfold rpc_onDidSelectItems. repeat case_match; try done. by destruct Hm.
  - apply more_call_proxy; [done|]. by destruct Hm.
  - unfold showQuickPick_then. repeat case_match; simplify_eq; cbn [snd];
      try done; apply more_call_proxy; try done; by destruct Hm.
  - unfold rpc_onItemSelected. case_match; [|done]. by destruct Hm.
  - apply more_call_proxy; [done|]. by destruct Hm.
  - unfold rpc_validateInput. case_match; [|done]. by destruct Hm.
  - by apply more_fire_timer.
Qed.

Lemma more_run ops w : wf w → wf_more w → wf_more (run ops w).
Proof.
  revert w. induction ops as [|o ops IH]; intros w Hw Hm; [done|].
  apply IH; [by apply wf_step|by apply more_step].
Qed.

Lemma more_reachable ops : wf_more (run ops initial).
Proof. apply more_run; [apply wf_initial|apply more_initial]. Qed.

(** ** Timers, sessions and the registry *)

Lemma length_le_1_of_equal {A} (l : list A) :
  NoDup l → (∀ x y, x ∈ l → y ∈ l → x = y) → (length l ≤ 1)%nat.
Proof.
  intros Hn Heq. destruct l as [|a [|b l]]; simpl; [lia..|].
  exfalso. apply NoDup_cons in Hn as [Hn _]. apply Hn.
  rewrite (Heq a b); set_solver.
Qed.

Lemma filter_nil_Forall {A} (P : A → Prop) `{∀ x, Decision (P x)} (l : list A) :
  Forall (λ x, ¬ P x) l → filter P l = [].
Proof.
  induction 1 as [|x l Hx _ IH]; [done|]. by rewrite filter_cons_False.
Qed.

(** X1. A session never has more than one flush pending, a pending flush
    is the one the session remembers in [_updateTimeout], and a session with
    a flush pending is not disposed. *)
Theorem one_pending_flush_per_session ops this :
  (length (timers_of this (run ops initial)) ≤ 1)%nat ∧
  ∀ t, (t, this) ∈ timers (run ops initial) →
    disposed_of this (run ops initial) = Some false ∧
    ((λ s, _updateTimeout (super s)) <$> heap (run ops initial) !! this) =
      Some (Some t).
Proof.
  pose proof (wf_reachable ops) as [_ Ht _].
  pose proof (more_reachable ops) as [Hn _ _ _ _].
  set (w := run ops initial) in *. unfold timers_of. split.
  - apply length_le_1_of_equal; [by apply NoDup_filter|].
    intros [t r] [t' r'].
    rewrite !list_elem_of_filter. simpl. intros [-> Hin] [-> Hin'].
    destruct (Ht _ _ Hin) as (_ & s & Hs & Hst & _).
    destruct (Ht _ _ Hin') as (_ & s' & Hs' & Hst' & _).
    congruence.
  - intros t Hin. destruct (Ht _ _ Hin) as (_ & s & Hs & Hst & Hd).
    unfold disposed_of. rewrite Hs. simpl. by rewrite Hst, Hd.
Qed.

Lemma filter_filter_implied {A} (P Q : A → Prop)
    `{∀ x, Decision (P x)} `{∀ x, Decision (Q x)} (l : list A) :
  (∀ x, x ∈ l → P x → Q x) → filter P (filter Q l) = filter P l.
Proof.
  induction l as [|x l IH]; intros Hall; [done|].
  assert (filter P (filter Q l) = filter P l) as IH'.
  { apply IH. intros y Hy. apply Hall. by right. }
  rewrite (filter_cons Q). destruct (decide (Q x)) as [Hq|Hq].
  - rewrite !filter_cons. by rewrite IH'.
  - rewrite IH'. rewrite filter_cons_False; [done|].
    intros Hp. apply Hq, Hall; [by left|done].
Qed.

Lemma timers_of_cleared_other this other id w s :
  wf w → wf_more w → other ≠ this →
  heap w !! this = Some s → _updateTimeout (super s) = id →
  filter (λ e, e.2 = other) (cleared id (timers w)) = timers_of other w.
Proof.
  intros [_ Ht _] [_ _ Hu _ _] Hne H Hid. unfold timers_of.
  destruct id as [t0|]; [|done]. simpl.
  apply filter_filter_implied. intros [t r] Hin. simpl. intros -> ->.
  destruct (Ht _ _ Hin) as (_ & x & Hx & Hxt & _).
  apply Hne. by eapply Hu.
Qed.

Lemma update_leaves_others this other properties w :
  wf w → wf_more w → other ≠ this →
  heap (update this properties w) !! other = heap w !! other ∧
  timers_of other (update this properties w) = timers_of other w.
Proof.
  intros Hw Hm Hne.
  destruct (heap w !! this) as [s|] eqn:H;
    [|by unfold update; rewrite H].
  destruct (_disposed (super s)) eqn:Hd; [by erewrite update_disposed|].
  destruct (_visible (super s)) eqn:Hv.
  - erewrite update_visible by done. unfold timers_of at 1. simpl.
    rewrite lookup_insert_ne by done. split; [done|].
    rewrite filter_app, filter_cons_False, filter_nil, app_nil_r by (simpl; done).
    by eapply timers_of_cleared_other.
  - erewrite update_hidden by done. simpl.
    by rewrite lookup_insert_ne.
Qed.

Lemma modify_leaves_others this other f w :
  other ≠ this →
  heap (modify this f w) !! other = heap w !! other ∧
  timers_of other (modify this f w) = timers_of other w.
Proof. intros Hne. simpl. by rewrite lookup_alter_ne. Qed.

Lemma dispose_leaves_others this other w :
  wf w → wf_more w → other ≠ this →
  heap (dispose this w) !! other = heap w !! other ∧
  timers_of other (dispose this w) = timers_of other w.
Proof.
  intros Hw Hm Hne.
  destruct (heap w !! this) as [s|] eqn:H;
    [|by unfold dispose; rewrite H].
  destruct (_disposed (super s)) eqn:Hd; [by erewrite dispose_disposed|].
  erewrite dispose_live by done. unfold timers_of at 1. simpl.
  rewrite lookup_insert_ne by done. split; [done|].
  by eapply timers_of_cleared_other.
Qed.

(** X2. A method call on one session (a setter, [show], [hide], [dispose],
    a subscription) leaves every other session as it was: the object is
    unchanged and its pending flush is neither cancelled nor doubled. *)
Theorem calls_leave_other_sessions_alone ops o this other :
  op_target o = Some this → other ≠ this →
  heap (step o (run ops initial)) !! other = heap (run ops initial) !! other ∧
  timers_of other (step o (run ops initial)) =
    timers_of other (run ops initial).
Proof.
  pose proof (wf_reachable ops) as Hw. pose proof (more_reachable ops) as Hm.
  set (w := run ops initial) in *. intros Ho Hne.
  assert (∀ f properties, (∀ s, same_core s (f s)) →
    heap (update this properties (modify this f w)) !! other = heap w !! other ∧
    timers_of other (update this properties (modify this f w)) =
      timers_of other w) as Hum.
  { intros f properties Hf.
    destruct (update_leaves_others this other properties (modify this f w))
      as [-> ->]; [by apply wf_modify|by apply more_modify|done|].
    by apply modify_leaves_others. }
  destruct o; try discriminate Ho; injection Ho as ->; cbn [step].
  - destruct (heap w !! this) as [s|] eqn:H;
      [|by unfold call_setter; rewrite H].
    destruct (has_setter (sub s) p) eqn:Hp.
    + erewrite call_setter_eq by done. apply Hum, set_local_same_core.
    + by erewrite call_setter_undeclared.
  - by apply Hum.
  - by apply Hum.
  - by apply dispose_leaves_others.
  - by apply modify_leaves_others.
  - by apply modify_leaves_others.
Qed.

Lemma calls_leave_other_sessions_alone_witness :
  timers_of 2
    (step (Dispose 1)
       (run [CreateQuickPick "a"; CreateInputBox "b"; Show 1; Show 2;
             Set_ 1 (SetBusy true)] initial)) =
  timers_of 2
    (run [CreateQuickPick "a"; CreateInputBox "b"; Show 1; Show 2;
          Set_ 1 (SetBusy true)] initial).
Proof.
  apply (calls_leave_other_sessions_alone
           [CreateQuickPick "a"; CreateInputBox "b"; Show 1; Show 2;
            Set_ 1 (SetBusy true)] (Dispose 1) 1 2).
  - reflexivity.
  - discriminate.
Defined.

(** X3. Every [$createOrUpdate] the host has received names, under ["id"],
    a session that [createQuickPick] or [createInputBox] made. *)
Theorem every_update_names_a_session ops m :
  PCreateOrUpdate m ∈ proxy (run ops initial) →
  ∃ i, m !! "id" = Some (VNum i) ∧
       is_Some (heap (run ops initial) !! i) ∧
       (i < _nextId (run ops initial))%nat.
Proof.
  pose proof (wf_reachable ops) as [Hid _ _].
  pose proof (more_reachable ops) as [_ _ _ _ Hl].
  intros Hin. destruct (Hl _ Hin) as (i & Ei & [s Hs]).
  exists i. split; [done|]. split; [by exists s|].
  by destruct (Hid _ _ Hs) as (_ & Hlt & _).
Qed.

Lemma every_update_names_a_session_witness :
  ∃ i, ({[ "id" := VNum 1; "visible" := VBool true ]} : gmap string Value)
         !! "id" = Some (VNum i) ∧
       is_Some (heap (run [CreateQuickPick "ext"; Show 1; Turn] initial) !! i) ∧
       (i < _nextId (run [CreateQuickPick "ext"; Show 1; Turn] initial))%nat.
Proof.
  apply (every_update_names_a_session [CreateQuickPick "ext"; Show 1; Turn]).
  vm_compute. apply list_elem_of_here.
Defined.

(** X4. The registry holds exactly the sessions that are not disposed,
    each under its own id. *)
Theorem registry_holds_the_live_sessions ops i r :
  _sessions (run ops initial) !! i = Some r ↔
  r = i ∧ disposed_of i (run ops initial) = Some false.
Proof.
  pose proof (wf_reachable ops) as [_ _ Hs].
  pose proof (more_reachable ops) as [_ _ _ Hr _].
  set (w := run ops initial) in *. unfold disposed_of. split.
  - intros Hi. destruct (Hr _ _ Hi) as (-> & s & H & Hd).
    split; [done|]. by rewrite H; simpl; rewrite Hd.
  - intros [-> Hd]. destruct (heap w !! i) as [s|] eqn:H; [|done].
    injection Hd as Hd. by rewrite (Hs _ _ H), Hd.
Qed.

(** X5. The session a [createQuickPick] or [createInputBox] returns is new:
    its id is the value of the counter, which then grows by one, and no
    object, registry entry, timer or message of that id exists before;
    afterwards it is registered, hidden, enabled, not busy, with only its
    id in its buffer, and every older session is as it was. *)
Theorem created_session_is_fresh ops extensionId (quickPick : bool) this w1 :
  (if quickPick then createQuickPick extensionId (run ops initial)
   else createInputBox extensionId (run ops initial)) = (this, w1) →
  this = _nextId (run ops initial) ∧ _nextId w1 = S this ∧
  heap (run ops initial) !! this = None ∧
  _sessions (run ops initial) !! this = None ∧
  timers_of this (run ops initial) = [] ∧
  updates_for this (proxy (run ops initial)) = [] ∧
  _sessions w1 !! this = Some this ∧
  visible_of this w1 = Some false ∧
  get PEnabled this w1 = Some (RBool true) ∧
  get PBusy this w1 = Some (RBool false) ∧
  pending_of this w1 = Some {[ "id" := VNum this ]} ∧
  (is_Some (get_items this w1) ↔ quickPick = true) ∧
  (∀ r s, heap (run ops initial) !! r = Some s →
     (r < this)%nat ∧ heap w1 !! r = Some s) ∧
  timers w1 = timers (run ops initial) ∧
  proxy w1 = proxy (run ops initial).
Proof.
  pose proof (wf_reachable ops) as [Hid Ht Hs].
  pose proof (more_reachable ops) as [_ _ _ Hr Hl].
  set (w := run ops initial) in *. intros Hc.
  set (c := if quickPick then QuickPickFields ExtHostQuickPick.init
            else InputBoxFields ExtHostInputBox.init).
  assert (this = _nextId w ∧
          w1 = with_sessions (<[_nextId w := _nextId w]> (_sessions w))
                 (store (_nextId w) (new_session (_nextId w) extensionId c)
                    (with_nextId (S (_nextId w)) w))) as [-> ->].
  { unfold c. destruct quickPick; by injection Hc as <- <-. }
  clear Hc.
  assert (heap w !! _nextId w = None) as Hnone.
  { destruct (heap w !! _nextId w) as [s|] eqn:H; [|done].
    destruct (Hid _ _ H) as (_ & ? & _). lia. }
  unfold visible_of, pending_of, get, get_items, timers_of. simpl.
  split_and!; try done.
  - destruct (_sessions w !! _nextId w) as [r|] eqn:H; [|done].
    destruct (Hr _ _ H) as (-> & s & Hs' & _). congruence.
  - apply filter_nil_Forall, Forall_forall. intros [t r] Hin. simpl. intros ->.
    destruct (Ht _ _ Hin) as (_ & s & Hs' & _). congruence.
  - apply filter_nil_Forall, Forall_forall. intros call Hin Hcall.
    destruct call as [| | | |m|]; try discriminate Hcall.
    destruct (Hl _ Hin) as (i & Ei & [s Hs']). simpl in Hcall.
    rewrite Ei in Hcall. injection Hcall as ->. congruence.
  - by rewrite lookup_insert_eq.
  - by rewrite lookup_insert_eq.
  - by rewrite lookup_insert_eq.
  - by rewrite lookup_insert_eq.
  - by rewrite lookup_insert_eq.
  - rewrite lookup_insert_eq. unfold c. simpl.
    destruct quickPick; simpl; split; try done; try (by eexists);
      by intros [? ?].
  - intros r s H. destruct (Hid _ _ H) as (_ & Hlt & _).
    split; [done|]. rewrite lookup_insert_ne; [done|lia].
Qed.

Lemma created_session_is_fresh_witness :
  updates_for 2 (proxy (run [CreateQuickPick "a"; Show 1; Turn] initial)) = [] ∧
  _sessions (createInputBox "b" (run [CreateQuickPick "a"; Show 1; Turn] initial)).2
    !! 2 = Some 2.
Proof.
  destruct (created_session_is_fresh [CreateQuickPick "a"; Show 1; Turn] "b"
              false 2
              (createInputBox "b"
                 (run [CreateQuickPick "a"; Show 1; Turn] initial)).2 eq_refl)
    as (_ & _ & _ & _ & _ & E1 & E2 & _).
  split; [exact E1|exact E2].
Defined.

(** X6. A selection notification from the host is dropped, and the world
    is as before, when its session id is not the id of a quick pick (no
    such session, or an input box) or when that session is disposed. *)
Theorem selection_for_no_live_quick_pick_is_dropped ops sessionId handles :
  get_items sessionId (run ops initial) = None ∨
  disposed_of sessionId (run ops initial) = Some true →
  rpc_onDidSelectItems sessionId handles (run ops initial) = run ops initial.
Proof.
  pose proof (wf_reachable ops) as [_ _ Hs].
  pose proof (more_reachable ops) as [_ _ _ Hr _].
  set (w := run ops initial) in *. unfold get_items, disposed_of.
  intros Hcase. unfold rpc_onDidSelectItems.
  destruct (_sessions w !! sessionId) as [r|] eqn:Hreg; [|done].
  destruct (Hr _ _ Hreg) as (-> & s & H & Hd). rewrite H in *. simpl in *.
  destruct (sub s); [|done]. destruct Hcase as [[=]|[=]]. congruence.
Qed.

Lemma selection_for_no_live_quick_pick_is_dropped_witness :
  rpc_onDidSelectItems 1 [0]
    (run [CreateQuickPick "a"; OnDidSelectionChange 1 5;
          Set_ 1 (SetItems [{| label := "x"; description := None;
                               detail := None; picked := None;
                               extra := [] |}]);
          Show 1; Dispose 1] initial) =
  run [CreateQuickPick "a"; OnDidSelectionChange 1 5;
       Set_ 1 (SetItems [{| label := "x"; description := None;
                            detail := None; picked := None; extra := [] |}]);
       Show 1; Dispose 1] initial.
Proof.
  apply (selection_for_no_live_quick_pick_is_dropped
           [CreateQuickPick "a"; OnDidSelectionChange 1 5;
            Set_ 1 (SetItems [{| label := "x"; description := None;
                                 detail := None; picked := None;
                                 extra := [] |}]);
            Show 1; Dispose 1] 1 [0]).
  right. vm_compute. reflexivity.
Defined.

(** ** Hidden sessions and the end of a turn *)

Lemma hide_live this w s :
  wf w → heap w !! this = Some s → _disposed (super s) = false →
  wf (hide this w) ∧
  ∃ s', heap (hide this w) !! this = Some s' ∧
    _visible (super s') = false ∧ _disposed (super s') = false ∧
    _pendingUpdate (super s') =
      <["visible" := VBool false]> (_pendingUpdate (super s)) ∧
    proxy (hide this w) = proxy w ∧ timers (hide this w) = timers w.
Proof.
  intros Hw H Hd. split; [apply (wf_step (Hide this) w Hw)|].
  unfold hide. rewrite (modify_store _ _ _ _ H).
  set (s1 := map_super (with_visible false) s).
  assert (heap (store this s1 w) !! this = Some s1) as H1
    by apply lookup_insert_eq.
  erewrite update_hidden by done.
  eexists. split; [apply lookup_insert_eq|]. by simpl.
Qed.

(** X7. Flushing is gated on visibility: on a hidden live session with no
    flush pending, setter calls only fill the buffer. The end of the turn
    sends nothing for the session, and the buffer then holds, under every
    key written, the last value written, and what it held before under the
    other keys. *)
Theorem hidden_session_sends_nothing ops this ps :
  visible_of this (run ops initial) = Some false →
  disposed_of this (run ops initial) = Some false →
  timers_of this (run ops initial) = [] →
  Forall (λ p, declares this (run ops initial) p = true) ps →
  updates_for this
    (proxy (run_timers (call_setters ps this (run ops initial)))) =
    updates_for this (proxy (run ops initial)) ∧
  visible_of this (run_timers (call_setters ps this (run ops initial))) =
    Some false ∧
  ∃ b b',
    pending_of this (run ops initial) = Some b ∧
    pending_of this (run_timers (call_setters ps this (run ops initial))) =
      Some b' ∧
    ∀ key, b' !! key = match last_written key ps with
                       | Some v => Some v
                       | None => b !! key
                       end.
Proof.
  pose proof (wf_reachable ops) as Hw. set (w := run ops initial) in *.
  unfold visible_of, disposed_of, declares, pending_of, timers_of.
  destruct (heap w !! this) as [s|] eqn:H; [|done]. simpl.
  intros [= Hv] [= Hd] Hnone Hps.
  destruct (call_setters_live ps this w s Hw H Hd Hps)
    as (Hw1 & s1 & H1 & Ev1 & _ & Ep1 & _ & Ex1 & Et1).
  destruct (Et1 Hv) as [Et _].
  unfold run_timers.
  assert (wf (with_timers [] (next_timer (call_setters ps this w))
                (call_setters ps this w))) as Hw0.
  { apply wf_drop_timers; [done|]. apply list_subseteq_nil. }
  destruct (foldl_flush_others this (timers (call_setters ps this w)) _ Hw0)
    as (E1 & E2 & _).
  { rewrite Et. apply Forall_forall. intros e Hin He.
    apply (filter_nil_not_elem_of _ _ e Hnone He Hin). }
  rewrite E1, E2. simpl. rewrite H1, Ex1. simpl.
  split; [done|]. split; [congruence|].
  eexists _, _. split; [done|]. split; [done|].
  intros key. by rewrite Ep1, assign_last_written.
Qed.

Lemma hidden_session_sends_nothing_witness :
  updates_for 1
    (proxy (run_timers
       (call_setters [SetValue "a"; SetValue "b"] 1
          (run [CreateInputBox "ext"] initial)))) =
  updates_for 1 (proxy (run [CreateInputBox "ext"] initial)).
Proof.
  apply (hidden_session_sends_nothing [CreateInputBox "ext"] 1
           [SetValue "a"; SetValue "b"]).
  - vm_compute. reflexivity.
  - vm_compute. reflexivity.
  - vm_compute. reflexivity.
  - repeat constructor.
Defined.

(** X8. The flush callback does not look at visibility again: [show()]
    followed by [hide()] in the same turn still sends one [$createOrUpdate]
    at the end of the turn, and it says [visible: false]. *)
Theorem show_then_hide_sends_hidden ops this :
  disposed_of this (run ops initial) = Some false →
  ∃ m,
    updates_for this
      (proxy (run_timers (hide this (show this (run ops initial))))) =
    updates_for this (proxy (run ops initial)) ++ [PCreateOrUpdate m] ∧
    m !! "visible" = Some (VBool false) ∧
    m !! "id" = Some (VNum this) ∧
    (∀ key, key ≠ "visible" →
       Some (m !! key) =
       (λ b, b !! key) <$> pending_of this (run ops initial)).
Proof.
  pose proof (wf_reachable ops) as Hw. set (w := run ops initial) in *.
  unfold disposed_of, pending_of at 1.
  destruct (heap w !! this) as [s|] eqn:H; [|done]. simpl. intros [= Hd].
  destruct (show_live this w s Hw H Hd)
    as (Hw1 & s1 & H1 & _ & Ed1 & Ep1 & Ex1 & l & El & Hl).
  destruct (hide_live this _ s1 Hw1 H1 Ed1)
    as (Hw2 & s2 & H2 & Ev2 & Ed2 & Ep2 & Ex2 & Et2).
  rewrite <- Et2 in El.
  destruct (run_timers_single this _ s2 l _ Hw2 El Hl H2 Ed2) as [E1 E2].
  exists (_pendingUpdate (super s2)). rewrite E1, Ex2, Ex1, Ep2, Ep1.
  split; [done|]. split; [apply lookup_insert_eq|].
  destruct Hw as [Hid _ _]. destruct (Hid _ _ H) as (_ & _ & Eid).
  split; [by rewrite !lookup_insert_ne|].
  intros key Hk. by rewrite !lookup_insert_ne.
Qed.

Lemma show_then_hide_sends_hidden_witness :
  ∃ m,
    updates_for 1
      (proxy (run_timers (hide 1 (show 1 (run [CreateQuickPick "e"] initial)))))
    = updates_for 1 (proxy (run [CreateQuickPick "e"] initial)) ++
        [PCreateOrUpdate m] ∧
    m !! "visible" = Some (VBool false).
Proof.
  destruct (show_then_hide_sends_hidden [CreateQuickPick "e"] 1)
    as (m & E1 & E2 & _).
  - vm_compute. reflexivity.
  - exists m. split; [exact E1|exact E2].
Defined.

Lemma flush_with_timers this l n w :
  flush this (with_timers l n w) = with_timers l n (flush this w).
Proof. unfold flush. simpl. by repeat case_match. Qed.

Lemma foldl_flush_with_timers (q : list (nat * ref)) l n w :
  foldl (λ w e, flush e.2 w) (with_timers l n w) q =
  with_timers l n (foldl (λ w e, flush e.2 w) w q).
Proof.
  revert w. induction q as [|e q IH]; intros w; [done|].
  simpl. by rewrite flush_with_timers, IH.
Qed.

Lemma flush_timers this w :
  timers (flush this w) = timers w ∧ next_timer (flush this w) = next_timer w.
Proof. unfold flush. by repeat case_match. Qed.

Lemma run_timers_fire_timer w :
  timers w ≠ [] → run_timers w = run_timers (fire_timer w).
Proof.
  intros Hne. unfold run_timers at 2. unfold fire_timer, run_timers.
  destruct (timers w) as [|e l] eqn:E; [done|]. simpl.
  destruct (flush_timers e.2 (with_timers l (next_timer w) w)) as [-> ->].
  simpl. rewrite !flush_with_timers, !foldl_flush_with_timers.
  by destruct (foldl _ _ l).
Qed.

(** X9. The end of a turn empties the timer queue; ending the turn again
    changes nothing, so a flush is sent once and never again; and it is the
    same as letting the pending timers fire one by one. *)
Theorem turn_fires_each_timer_once w :
  timers (run_timers w) = [] ∧
  run_timers (run_timers w) = run_timers w ∧
  run_timers w = Nat.iter (length (timers w)) fire_timer w.
Proof.
  assert (timers (run_timers w) = []) as Hnil.
  { unfold run_timers. rewrite foldl_flush_with_timers. done. }
  split; [done|]. split.
  - unfold run_timers at 1. rewrite Hnil. simpl. revert Hnil.
    generalize (run_timers w). intros [] Hnil. simpl in *. by subst.
  - remember (length (timers w)) as n eqn:Hn. revert w Hn Hnil.
    induction n as [|n IH]; intros w Hn _.
    + simpl. unfold run_timers.
      destruct (timers w) eqn:E; [|done]. simpl. destruct w. simpl in *.
      by subst.
    + rewrite Nat.iter_succ_r. rewrite run_timers_fire_timer.
      * apply IH; [|unfold run_timers; by rewrite foldl_flush_with_timers].
        unfold fire_timer. destruct (timers w) as [|e l] eqn:E; [done|].
        destruct (flush_timers e.2 (with_timers l (next_timer w) w)) as [-> _].
        simpl in *. lia.
      * intros E. by rewrite E in Hn.
Qed.

(** ** Getters and setters *)

Lemma same_subs_refl w : same_subs w w.
Proof. intros r. by destruct (heap w !! r). Qed.

Lemma same_subs_trans w1 w2 w3 :
  same_subs w1 w2 → same_subs w2 w3 → same_subs w1 w3.
Proof.
  intros H12 H23 r. specialize (H12 r). specialize (H23 r).
  destruct (heap w1 !! r), (heap w2 !! r), (heap w3 !! r); try done.
  congruence.
Qed.

Lemma same_subs_store this s s' w :
  heap w !! this = Some s → sub s' = sub s → same_subs w (store this s' w).
Proof.
  intros H E r. simpl. rewrite lookup_insert. case_decide; [subst|].
  - by rewrite H.
  - by destruct (heap w !! r).
Qed.

Lemma same_subs_heap w w' : heap w' = heap w → same_subs w w'.
Proof. intros E r. rewrite E. by destruct (heap w !! r). Qed.

Lemma same_subs_update this properties w :
  same_subs w (update this properties w).
Proof.
  destruct (heap w !! this) as [s|] eqn:H;
    [|unfold update; rewrite H; apply same_subs_refl].
  destruct (_disposed (super s)) eqn:Hd;
    [erewrite update_disposed by done; apply same_subs_refl|].
  destruct (_visible (super s)) eqn:Hv.
  - erewrite update_visible by done.
    eapply same_subs_trans; [|by eapply same_subs_store].
    by apply same_subs_heap.
  - erewrite update_hidden by done. by eapply same_subs_store.
Qed.

Lemma same_subs_dispose this w : same_subs w (dispose this w).
Proof.
  destruct (heap w !! this) as [s|] eqn:H;
    [|unfold dispose; rewrite H; apply same_subs_refl].
  destruct (_disposed (super s)) eqn:Hd;
    [erewrite dispose_disposed by done; apply same_subs_refl|].
  erewrite dispose_live by done.
  apply (same_subs_trans _ (store this (disposed_session s) w));
    [by apply (same_subs_store this s)|].
  by apply same_subs_heap.
Qed.

Lemma same_subs_flush this w : same_subs w (flush this w).
Proof.
  unfold flush. destruct (heap w !! this) as [s|] eqn:H;
    [|apply same_subs_refl].
  destruct (_disposed (super s)); [apply same_subs_refl|].
  eapply same_subs_trans; [|by eapply same_subs_store].
  by apply same_subs_heap.
Qed.

Lemma same_subs_foldl_flush (l : list (nat * ref)) w :
  same_subs w (foldl (λ w e, flush e.2 w) w l).
Proof.
  revert w. induction l as [|e l IH]; intros w; [apply same_subs_refl|].
  simpl. eapply same_subs_trans; [apply same_subs_flush|apply IH].
Qed.

(** The getters read nothing [update] writes. *)
Lemma get_update p r this properties w :
  get p r (update this properties w) = get p r w.
Proof.
  unfold get.
  destruct (heap w !! this) as [s|] eqn:H;
    [|by unfold update; rewrite H].
  destruct (_disposed (super s)) eqn:Hd; [by erewrite update_disposed|].
  destruct (_visible (super s)) eqn:Hv.
  - erewrite update_visible by done. simpl. rewrite lookup_insert.
    case_decide; [subst|done]. rewrite H. simpl.
    unfold getter. simpl. by destruct p, (sub s).
  - erewrite update_hidden by done. simpl. rewrite lookup_insert.
    case_decide; [subst|done]. rewrite H. simpl.
    unfold getter. simpl. by destruct p, (sub s).
Qed.

(** X10. Read after write, for every setter a class declares and whether
    the session is hidden, visible or disposed: the getter of the property
    returns the value just written, the getters of the session's other
    properties return what they returned before, and so do all getters of
    the other sessions. *)
Theorem getter_reads_what_setter_wrote p this w :
  declares this w p = true →
  get (property_of p) this (call_setter p this w) = Some (written p) ∧
  (∀ q, q ≠ property_of p →
     get q this (call_setter p this w) = get q this w) ∧
  (∀ q other, other ≠ this →
     get q other (call_setter p this w) = get q other w).
Proof.
  unfold declares. destruct (heap w !! this) as [s|] eqn:H; [|done].
  intros Hp. rewrite (call_setter_eq _ _ _ _ H Hp).
  split_and!.
  - rewrite get_update. unfold get. rewrite modify_lookup, H. simpl.
    destruct s as [b [f|f]], p; try discriminate Hp; reflexivity.
  - intros q Hq. rewrite get_update. unfold get.
    rewrite modify_lookup, H. simpl.
    destruct s as [b [f|f]], p, q; try discriminate Hp; try reflexivity;
      by destruct Hq.
  - intros q other Hne. rewrite get_update. unfold get. simpl.
    by rewrite lookup_alter_ne.
Qed.

Lemma getter_reads_what_setter_wrote_witness :
  get PPlaceholder 1
    (call_setter (SetPlaceholder "type here") 1
       (run [CreateInputBox "ext"; Dispose 1] initial)) =
  Some (RString "type here").
Proof.
  apply (getter_reads_what_setter_wrote (SetPlaceholder "type here") 1
           (run [CreateInputBox "ext"; Dispose 1] initial)).
  reflexivity.
Defined.

Lemma same_subs_step_selected o w :
  (∀ r s q, heap w !! r = Some s → sub s = QuickPickFields q →
     ExtHostQuickPick._focusedItems q = [] ∧
     ExtHostQuickPick._selectedItems q = []) →
  ∀ r s q, heap (step o w) !! r = Some s → sub s = QuickPickFields q →
    ExtHostQuickPick._focusedItems q = [] ∧
    ExtHostQuickPick._selectedItems q = [].
Proof.
  intros Hall.
  assert (∀ w', same_subs w w' →
    ∀ r s q, heap w' !! r = Some s → sub s = QuickPickFields q →
      ExtHostQuickPick._focusedItems q = [] ∧
      ExtHostQuickPick._selectedItems q = []) as Hsame.
  { intros w' Hs r s q H Hq. specialize (Hs r). rewrite H in Hs.
    destruct (heap w !! r) as [s0|] eqn:H0; [|done].
    apply (Hall r s0); [done|congruence]. }
  assert (∀ this f,
    (∀ s q, sub s = QuickPickFields q → ∃ q', sub (f s) = QuickPickFields q' ∧
       ExtHostQuickPick._focusedItems q' = ExtHostQuickPick._focusedItems q ∧
       ExtHostQuickPick._selectedItems q' = ExtHostQuickPick._selectedItems q) →
    (∀ s i, sub s = InputBoxFields i → ∃ i', sub (f s) = InputBoxFields i') →
    ∀ r s q, heap (modify this f w) !! r = Some s → sub s = QuickPickFields q →
      ExtHostQuickPick._focusedItems q = [] ∧
      ExtHostQuickPick._selectedItems q = []) as Hmod.
  { intros this f Hf Hf' r s q. simpl. rewrite lookup_alter.
    case_decide; [subst r|apply Hall].
    destruct (heap w !! this) as [s0|] eqn:H0; [|done]. simpl.
    intros [= <-] Hq. destruct (sub s0) as [q0|i0] eqn:Hs0.
    - destruct (Hf _ _ Hs0) as (q' & Hq' & E1 & E2).
      rewrite Hq in Hq'. injection Hq' as <-. rewrite E1, E2.
      by apply (Hall this s0).
    - destruct (Hf' _ _ Hs0) as (i' & Hi'). congruence. }
  assert (∀ this f properties,
    (∀ s q, sub s = QuickPickFields q → ∃ q', sub (f s) = QuickPickFields q' ∧
       ExtHostQuickPick._focusedItems q' = ExtHostQuickPick._focusedItems q ∧
       ExtHostQuickPick._selectedItems q' = ExtHostQuickPick._selectedItems q) →
    (∀ s i, sub s = InputBoxFields i → ∃ i', sub (f s) = InputBoxFields i') →
    ∀ r s q, heap (update this properties (modify this f w)) !! r = Some s →
      sub s = QuickPickFields q →
      ExtHostQuickPick._focusedItems q = [] ∧
      ExtHostQuickPick._selectedItems q = []) as Hum.
  { intros this f properties Hf Hf' r s q H Hq.
    pose proof (same_subs_update this properties (modify this f w) r) as Hs.
    rewrite H in Hs.
    destruct (heap (modify this f w) !! r) as [s0|] eqn:H0; [|done].
    apply (Hmod this f Hf Hf' r s0); [done|congruence]. }
  destruct o; cbn [step].
  - intros r s q. simpl. rewrite lookup_insert. case_decide; [|apply Hall].
    by intros [= <-] [= <-].
  - intros r s q. simpl. rewrite lookup_insert. case_decide; [|apply Hall].
    by intros [= <-] [=].
  - destruct (heap w !! this) as [s0|] eqn:H0;
      [|unfold call_setter; rewrite H0; apply Hall].
    destruct (has_setter (sub s0) p) eqn:Hp;
      [|erewrite call_setter_undeclared by done; apply Hall].
    erewrite call_setter_eq by done. apply Hum.
    + intros [b [f|f]] q; intros [= <-]; destruct p; by eexists.
    + intros [b [f|f]] i; intros [= <-]; destruct p; by eexists.
  - apply Hum; intros [b c] x; simpl; intros ->; by eexists.
  - apply Hum; intros [b c] x; simpl; intros ->; by eexists.
  - apply Hsame, same_subs_dispose.
  - apply Hmod; intros [b c] x; simpl; intros ->; by eexists.
  - apply Hmod; intros [b c] x; unfold map_quickPick; simpl; intros ->;
      by eexists.
  - apply Hsame. unfold run_timers.
    eapply same_subs_trans; [|apply same_subs_foldl_flush].
    by apply same_subs_heap.
  - apply Hsame, same_subs_heap. unfold rpc_onDidSelectItems.
    by repeat case_match.
  - apply Hall.
  - apply Hsame, same_subs_heap. unfold showQuickPick_then.
    by repeat case_match.
  - apply Hsame, same_subs_heap. unfold rpc_onItemSelected. by case_match.
  - apply Hall.
  - apply Hsame, same_subs_heap. unfold rpc_validateInput. by case_match.
  - apply Hsame. unfold fire_timer. destruct (timers w); [apply same_subs_refl|].
    eapply same_subs_trans; [|apply same_subs_flush].
    by apply same_subs_heap.
Qed.

(** X11. [selectedItems] and [focusedItems] of a quick pick are never
    assigned: whatever the extension and the host do, selection
    notifications included, both getters return the empty list. *)
Theorem selected_and_focused_items_stay_empty ops this :
  is_Some (get_items this (run ops initial)) →
  get PSelectedItems this (run ops initial) = Some (RItems []) ∧
  get PFocusedItems this (run ops initial) = Some (RItems []).
Proof.
  assert (∀ r s q, heap (run ops initial) !! r = Some s →
            sub s = QuickPickFields q →
            ExtHostQuickPick._focusedItems q = [] ∧
            ExtHostQuickPick._selectedItems q = []) as Hall.
  { induction ops as [|o ops IH] using rev_ind.
    - intros r s q H. simpl in H. by rewrite lookup_empty in H.
    - rewrite run_app. simpl. by apply same_subs_step_selected. }
  unfold get_items, get.
  destruct (heap (run ops initial) !! this) as [s|] eqn:H;
    [|by intros [? [=]]]. simpl.
  destruct (sub s) as [q|] eqn:Hq; [|by intros [? [=]]]. intros _.
  destruct (Hall _ _ _ H Hq) as [E1 E2]. unfold getter.
  rewrite ?Hq. simpl. by rewrite E1, E2.
Qed.

Lemma selected_and_focused_items_stay_empty_witness :
  get PSelectedItems 1
    (run [CreateQuickPick "ext"; OnDidSelectionChange 1 5;
          Set_ 1 (SetItems [{| label := "eins"; description := None;
                               detail := None; picked := Some true;
                               extra := [] |}]);
          Show 1; Turn; HostDidSelectItems 1 [0]] initial) =
  Some (RItems []).
Proof.
  apply (selected_and_focused_items_stay_empty
           [CreateQuickPick "ext"; OnDidSelectionChange 1 5;
            Set_ 1 (SetItems [{| label := "eins"; description := None;
                                 detail := None; picked := Some true;
                                 extra := [] |}]);
            Show 1; Turn; HostDidSelectItems 1 [0]] 1).
  vm_compute. eauto.
Defined.

(** ** One-shot picks, end to end *)

Lemma pickItems_lookup items i :
  pickItems items !! i =
  (λ item,
     match item with
     | ItemString s =>
       {| t_label := s; t_description := None; t_handle := i;
          t_detail := None; t_picked := None |}
     | ItemObject q => transfer_item i q
     end) <$> items !! i.
Proof. unfold pickItems. apply list_lookup_imap. Qed.

(** X12. Round trip of a handle. The entry [$setItems] carries for item
    [i] has handle [i] and the item's label (a string item is its own label
    and has no description, detail or picked flag); when the host answers
    with that handle, the caller gets the very item, and [$setItems] was
    the one call made, with as many entries as there are items. *)
Theorem picked_handle_returns_its_item options key items i item w :
  key ≠ "0" → items !! i = Some item →
  ∃ t,
    pickItems items !! i = Some t ∧
    t_handle t = i ∧ t_label t = item_label item ∧
    (∀ s, item = ItemString s →
       t_description t = None ∧ t_detail t = None ∧ t_picked t = None) ∧
    length (pickItems items) = length items ∧
    proxy
      (showQuickPick_then options key (Fulfilled items)
         (Fulfilled (HandleNumber (t_handle t))) w).2 =
      proxy w ++ [PSetItems (pickItems items)] ∧
    (showQuickPick_then options key (Fulfilled items)
       (Fulfilled (HandleNumber (t_handle t))) w).1 =
      Fulfilled (PickItem item).
Proof.
  intros Hk Hi. eexists. split; [by rewrite pickItems_lookup, Hi|].
  unfold showQuickPick_then.
  destruct (String.eqb key "0") eqn:E; [by apply String.eqb_eq in E|].
  destruct item as [s|q]; simpl; rewrite Hi; split_and!; try done;
    try apply length_imap; by destruct (options ≫= _).
Qed.

Lemma picked_handle_returns_its_item_witness :
  (showQuickPick_then None "1"
     (Fulfilled [ItemString "eins"; ItemString "zwei"; ItemString "drei"])
     (Fulfilled (HandleNumber 1)) initial).1 =
  Fulfilled (PickItem (ItemString "zwei")).
Proof.
  destruct (picked_handle_returns_its_item None "1"
              [ItemString "eins"; ItemString "zwei"; ItemString "drei"] 1
              (ItemString "zwei") initial)
    as (t & Et & Eh & _ & _ & _ & _ & E).
  - discriminate.
  - reflexivity.
  - rewrite Eh in E. exact E.
Defined.

(** X13. What the caller gets for the other answers of the host. For a
    list of handles: as many results as handles, in the host's order, each
    the item at its handle, none [undefined] when every handle is in range.
    For one handle beyond the end of the list, or an answer that is neither
    a number nor an array: [undefined]. When the host's promise rejects:
    that rejection. *)
Theorem pick_results_follow_the_host options key items w :
  key ≠ "0" →
  (∀ handles,
     ∃ picked,
       (showQuickPick_then options key (Fulfilled items)
          (Fulfilled (HandleArray handles)) w).1 = Fulfilled (PickItems picked) ∧
       length picked = length handles ∧
       (∀ j h, handles !! j = Some h → picked !! j = Some (items !! h)) ∧
       (Forall (λ h : nat, (h < length items)%nat) handles →
        Forall is_Some picked)) ∧
  (∀ handle, (length items ≤ handle)%nat →
     (showQuickPick_then options key (Fulfilled items)
        (Fulfilled (HandleNumber handle)) w).1 = Fulfilled PickUndefined) ∧
  (showQuickPick_then options key (Fulfilled items) (Fulfilled HandleOther)
     w).1 = Fulfilled PickUndefined ∧
  (∀ err,
     (showQuickPick_then options key (Fulfilled items) (Rejected err) w).1 =
       Rejected err).
Proof.
  intros Hk. unfold showQuickPick_then.
  destruct (String.eqb key "0") eqn:E; [by apply String.eqb_eq in E|].
  simpl. split_and!; try done.
  - intros handles. eexists. split; [done|]. split; [apply length_fmap|].
    split.
    + intros j h Hj. by rewrite list_lookup_fmap, Hj.
    + intros Hall. apply Forall_fmap. eapply Forall_impl; [done|].
      intros h Hh. simpl. by apply lookup_lt_is_Some.
  - intros handle Hh. by rewrite (lookup_ge_None_2 _ _ Hh).
Qed.

Lemma pick_results_follow_the_host_witness :
  (showQuickPick_then None "1" (Fulfilled [ItemString "eins"])
     (Fulfilled (HandleNumber 7)) initial).1 = Fulfilled PickUndefined.
Proof.
  destruct (pick_results_follow_the_host None "1" [ItemString "eins"] initial)
    as (_ & E & _).
  - discriminate.
  - apply (E 7). simpl. lia.
Defined.

(** ** The selection handler slot *)

Lemma onDidSelectItem_update this properties w :
  _onDidSelectItem (update this properties w) = _onDidSelectItem w.
Proof.
  destruct (heap w !! this) as [s|] eqn:H;
    [|by unfold update; rewrite H].
  destruct (_disposed (super s)) eqn:Hd; [by erewrite update_disposed|].
  destruct (_visible (super s)) eqn:Hv;
    [by erewrite update_visible|by erewrite update_hidden].
Qed.

Lemma onDidSelectItem_dispose this w :
  _onDidSelectItem (dispose this w) = _onDidSelectItem w.
Proof.
  destruct (heap w !! this) as [s|] eqn:H;
    [|by unfold dispose; rewrite H].
  destruct (_disposed (super s)) eqn:Hd;
    [by erewrite dispose_disposed|by erewrite dispose_live].
Qed.

Lemma onDidSelectItem_flush this w :
  _onDidSelectItem (flush this w) = _onDidSelectItem w.
Proof. unfold flush. by repeat case_match. Qed.

Lemma onDidSelectItem_run_timers w :
  _onDidSelectItem (run_timers w) = _onDidSelectItem w.
Proof.
  unfold run_timers. rewrite foldl_flush_with_timers. simpl.
  induction (timers w) as [|e l IH] using rev_ind; [done|].
  by rewrite foldl_app; simpl; rewrite onDidSelectItem_flush.
Qed.

(** Only [showQuickPick] and its continuation write the slot. *)
Lemma onDidSelectItem_step o w :
  is_pick_step o = false → _onDidSelectItem (step o w) = _onDidSelectItem w.
Proof.
  intros Ho. destruct o; try discriminate Ho; cbn [step]; try done.
  - destruct (heap w !! this) as [s|] eqn:H;
      [|by unfold call_setter; rewrite H].
    destruct (has_setter (sub s) p) eqn:Hp.
    + erewrite call_setter_eq by done. by rewrite onDidSelectItem_update.
    + by erewrite call_setter_undeclared.
  - unfold show. by rewrite onDidSelectItem_update.
  - unfold hide. by rewrite onDidSelectItem_update.
  - apply onDidSelectItem_dispose.
  - apply onDidSelectItem_run_timers.
  - unfold rpc_onDidSelectItems. by repeat case_match.
  - unfold rpc_onItemSelected. by case_match.
  - unfold rpc_validateInput. by case_match.
  - unfold fire_timer. destruct (timers w); [done|].
    by rewrite onDidSelectItem_flush.
Qed.

Lemma onDidSelectItem_run ops w :
  Forall (λ o, is_pick_step o = false) ops →
  _onDidSelectItem (run ops w) = _onDidSelectItem w.
Proof.
  intros Hops. revert w. induction Hops as [|o ops Ho _ IH]; intros w; [done|].
  simpl. by rewrite IH, onDidSelectItem_step.
Qed.



(** X15. As long as no other [showQuickPick] step runs (no further call
    and no continuation of an earlier call), [$onItemSelected] is dropped
    and the world is as before: after a [showQuickPick] call until its
    continuation runs, and also after its own continuation ran when the
    call gave no [onDidSelectItem]. *)
Theorem selection_without_handler_is_dropped
    options key items quickPickWidget before mid handle w :
  Forall (λ o, is_pick_step o = false) before →
  Forall (λ o, is_pick_step o = false) mid →
  rpc_onItemSelected handle (run mid (showQuickPick options w)) =
    run mid (showQuickPick options w) ∧
  (options ≫= QuickPickOptions.onDidSelectItem = None →
   rpc_onItemSelected handle
     (run mid
        (showQuickPick_then options key items quickPickWidget
           (run before (showQuickPick options w))).2) =
   run mid
     (showQuickPick_then options key items quickPickWidget
        (run before (showQuickPick options w))).2).
Proof.
  intros Hbefore Hmid. unfold rpc_onItemSelected.
  rewrite !onDidSelectItem_run by done. split; [done|].
  intros Hcb.
  assert (_onDidSelectItem
            (showQuickPick_then options key items quickPickWidget
               (run before (showQuickPick options w))).2 = None) as ->; [|done].
  pose proof (onDidSelectItem_run before (showQuickPick options w) Hbefore)
    as E. simpl in E.
  unfold showQuickPick_then. rewrite Hcb.
  repeat case_match; simplify_eq; simpl; done.
Qed.

Lemma selection_without_handler_is_dropped_witness :
  rpc_onItemSelected 0
    (run [CreateInputBox "ext"; Show 1; Fire]
       (showQuickPick_then None "1" (Fulfilled [ItemString "eins"])
          (Fulfilled HandleOther)
          (run [ShowInput None; Turn] (showQuickPick None initial))).2) =
  run [CreateInputBox "ext"; Show 1; Fire]
    (showQuickPick_then None "1" (Fulfilled [ItemString "eins"])
       (Fulfilled HandleOther)
       (run [ShowInput None; Turn] (showQuickPick None initial))).2.
Proof.
  apply (selection_without_handler_is_dropped None "1"
           (Fulfilled [ItemString "eins"]) (Fulfilled HandleOther)
           [ShowInput None; Turn] [CreateInputBox "ext"; Show 1; Fire] 0
           initial).
  - repeat constructor.
  - repeat constructor.
  - reflexivity.
Defined.

(** ** The workspace folder pick *)

(** X16. [showWorkspaceFolderPick] answers with a folder of the workspace,
    never with the object the command resolved to: the first folder of
    [getWorkspaceFolders()] whose uri prints like the selected one's;
    [undefined] exactly when no folder of the workspace has that uri, and
    when nothing was selected. *)
Theorem workspace_folder_pick_answers_from_workspace selectedFolder folders :
  showWorkspaceFolderPick_then None folders = None ∧
  (∀ folder,
     showWorkspaceFolderPick_then (Some selectedFolder) folders = Some folder →
     uri folder = uri selectedFolder ∧
     ∃ before after,
       folders = before ++ folder :: after ∧
       Forall (λ f, uri f ≠ uri selectedFolder) before) ∧
  (showWorkspaceFolderPick_then (Some selectedFolder) folders = None ↔
   Forall (λ f, uri f ≠ uri selectedFolder) folders).
Proof.
  split; [done|]. unfold showWorkspaceFolderPick_then.
  induction folders as [|f folders [IH1 IH2]]; simpl.
  - split; [done|]. split; [done|constructor].
  - rewrite filter_cons. destruct (decide (uri f = uri selectedFolder)) as [E|E].
    + simpl. split.
      * intros folder [= <-]. split; [done|]. exists [], folders. by split.
      * split; [done|]. intros H. by apply Forall_cons in H as [? _].
    + split.
      * intros folder Hf. destruct (IH1 _ Hf) as (Eu & l1 & l2 & -> & Hl1).
        split; [done|]. exists (f :: l1), l2. split; [done|by constructor].
      * rewrite IH2. split; [by constructor|].
        intros H. by apply Forall_cons in H as [_ ?].
Qed.

(** ** What only setters change *)

Lemma get_store q r this s s' w :
  heap w !! this = Some s → (∀ q, getter q s' = getter q s) →
  get q r (store this s' w) = get q r w.
Proof.
  intros H Hg. unfold get. simpl. rewrite lookup_insert.
  case_decide; [subst|done]. rewrite H. simpl. apply Hg.
Qed.

Lemma get_modify q r this f w :
  (∀ s q, getter q (f s) = getter q s) →
  get q r (modify this f w) = get q r w.
Proof.
  intros Hf. destruct (heap w !! this) as [s|] eqn:H.
  - rewrite (modify_store _ _ _ _ H). by apply (get_store _ _ _ s).
  - unfold get. simpl. rewrite lookup_alter. case_decide; [subst|done].
    by rewrite H.
Qed.

Lemma getter_map_super f s :
  _enabled (f (super s)) = _enabled (super s) →
  _busy (f (super s)) = _busy (super s) →
  ∀ q, getter q (map_super f s) = getter q s.
Proof.
  intros E1 E2 q. unfold getter. simpl. rewrite E1, E2.
  by destruct q, (sub s).
Qed.

Lemma get_dispose q r this w : get q r (dispose this w) = get q r w.
Proof.
  destruct (heap w !! this) as [s|] eqn:H;
    [|by unfold dispose; rewrite H].
  destruct (_disposed (super s)) eqn:Hd; [by erewrite dispose_disposed|].
  erewrite dispose_live by done.
  change (get q r (store this (disposed_session s) w) = get q r w).
  apply (get_store _ _ _ s); [done|]. intros q'.
  by apply getter_map_super.
Qed.

Lemma get_flush q r this w : get q r (flush this w) = get q r w.
Proof.
  unfold flush. destruct (heap w !! this) as [s|] eqn:H; [|done].
  destruct (_disposed (super s)); [done|].
  etrans; [apply (get_store _ _ _ s); [done|]|done].
  intros q'. by apply getter_map_super.
Qed.

Lemma get_foldl_flush q r (l : list (nat * ref)) w :
  get q r (foldl (λ w e, flush e.2 w) w l) = get q r w.
Proof.
  revert w. induction l as [|e l IH]; intros w; [done|].
  simpl. by rewrite IH, get_flush.
Qed.

(** X17. What the getters return changes only through setters: no other
    step (a [show], [hide] or [dispose] of any session, a subscription, a
    timer firing, the end of a turn, the creation of another session, any
    call of the host, any one-shot request) and no setter call on another
    session changes what any getter of an existing session returns. *)
Theorem getters_change_only_through_setters ops o q this :
  is_Some (heap (run ops initial) !! this) →
  (∀ p, o ≠ Set_ this p) →
  get q this (step o (run ops initial)) = get q this (run ops initial).
Proof.
  pose proof (wf_reachable ops) as [Hid _ _].
  set (w := run ops initial) in *. intros [s H] Ho.
  assert (_nextId w ≠ this) as Hfresh
    by (destruct (Hid _ _ H) as (_ & ? & _); lia).
  destruct o; cbn [step].
  - unfold get. simpl. by rewrite lookup_insert_ne.
  - unfold get. simpl. by rewrite lookup_insert_ne.
  - destruct (decide (this0 = this)) as [->|Hne]; [by destruct (Ho p)|].
    destruct (heap w !! this0) as [s0|] eqn:H0;
      [|by unfold call_setter; rewrite H0].
    destruct (has_setter (sub s0) p) eqn:Hp.
    + erewrite call_setter_eq by done. rewrite get_update.
      unfold get. simpl. by rewrite lookup_alter_ne.
    + by erewrite call_setter_undeclared.
  - unfold show. rewrite get_update. apply get_modify.
    intros s0 q0. by apply getter_map_super.
  - unfold hide. rewrite get_update. apply get_modify.
    intros s0 q0. by apply getter_map_super.
  - apply get_dispose.
  - apply get_modify. intros s0 q0. by apply getter_map_super.
  - apply get_modify. intros s0 q0. unfold map_quickPick, getter.
    destruct (sub s0) eqn:E; simpl; [|by rewrite E]. by destruct q0.
  - unfold run_timers. by rewrite get_foldl_flush.
  - unfold rpc_onDidSelectItems. by repeat case_match.
  - done.
  - unfold showQuickPick_then. by repeat case_match.
  - unfold rpc_onItemSelected. by case_match.
  - done.
  - unfold rpc_validateInput. by case_match.
  - unfold fire_timer. destruct (timers w); [done|]. by rewrite get_flush.
Qed.

Lemma getters_change_only_through_setters_witness :
  get PValue 1
    (step (HostDidSelectItems 1 [0])
       (run [CreateQuickPick "ext"; Set_ 1 (SetValue "abc"); Show 1] initial)) =
  get PValue 1
    (run [CreateQuickPick "ext"; Set_ 1 (SetValue "abc"); Show 1] initial).
Proof.
  apply (getters_change_only_through_setters
           [CreateQuickPick "ext"; Set_ 1 (SetValue "abc"); Show 1]
           (HostDidSelectItems 1 [0]) PValue 1).
  - vm_compute. eauto.
  - discriminate.
Defined.

(** ** Updates are deltas *)

Lemma flush_live_object this w s :
  heap w !! this = Some s → _disposed (super s) = false →
  heap (flush this w) !! this =
    Some (map_super
            (with_pendingUpdate {[ "id" := VNum (_id (super s)) ]}) s).
Proof.
  intros H Hd. unfold flush. rewrite H, Hd. apply lookup_insert_eq.
Qed.

Lemma run_timers_single_object this w s l t :
  wf w → timers w = l ++ [(t, this)] → Forall (λ e, e.2 ≠ this) l →
  heap w !! this = Some s → _disposed (super s) = false →
  heap (run_timers w) !! this =
    Some (map_super (with_pendingUpdate {[ "id" := VNum this ]}) s).
Proof.
  intros Hw Ht Hl H Hd. unfold run_timers. rewrite Ht, foldl_app. simpl.
  assert (wf (with_timers [] (next_timer w) w)) as Hw0.
  { apply wf_drop_timers; [done|]. apply list_subseteq_nil. }
  destruct (foldl_flush_others this l _ Hw0 Hl) as (E1 & _ & _).
  simpl in E1. erewrite flush_live_object; [|by rewrite E1|done].
  destruct Hw as [Hid _ _]. by destruct (Hid _ _ H) as (-> & _).
Qed.

(** One turn of setter calls on a visible live session. *)
Lemma turn_of_setters this w s ps :
  wf w → heap w !! this = Some s → _visible (super s) = true →
  _disposed (super s) = false → ps ≠ [] →
  Forall (λ p, has_setter (sub s) p = true) ps →
  wf (run_timers (call_setters ps this w)) ∧
  ∃ s',
    heap (run_timers (call_setters ps this w)) !! this = Some s' ∧
    _visible (super s') = true ∧ _disposed (super s') = false ∧
    _pendingUpdate (super s') = {[ "id" := VNum this ]} ∧
    (∀ p, has_setter (sub s') p = has_setter (sub s) p) ∧
    updates_for this (proxy (run_timers (call_setters ps this w))) =
      updates_for this (proxy w) ++
      [PCreateOrUpdate (assign (_pendingUpdate (super s)) (staged <$> ps))].
Proof.
  intros Hw H Hv Hd Hne Hps.
  destruct (exists_last Hne) as (ps0 & p & ->).
  apply Forall_app in Hps as [Hps0 Hp]. apply Forall_inv in Hp. simpl in Hp.
  destruct (call_setters_live ps0 this w s Hw H Hd Hps0)
    as (Hw0 & s0 & H0 & Ev0 & Ed0 & Ep0 & Eh0 & Ex0 & _).
  rewrite call_setters_snoc.
  destruct (call_setter_live p this _ s0 Hw0 H0 Ed0)
    as (Hw1 & s1 & H1 & Ev1 & Ed1 & Ep1 & Eh1 & Ex1 & Et1);
    [by rewrite Eh0|].
  rewrite Ev0, Hv in Et1. destruct Et1 as (l & El & Hl).
  destruct (run_timers_single this _ s1 l _ Hw1 El Hl H1 Ed1) as [E1 _].
  pose proof (run_timers_single_object this _ s1 l _ Hw1 El Hl H1 Ed1) as E2.
  split; [by apply wf_run_timers|].
  eexists. split; [exact E2|]. simpl.
  split; [congruence|]. split; [done|]. split; [done|].
  split; [intros p'; by rewrite Eh1, Eh0|].
  rewrite E1, Ex1, Ex0. do 2 f_equal.
  rewrite fmap_app, assign_app, <- Ep0, Ep1. simpl. by destruct (staged p).
Qed.

(** X18. Updates are deltas. After a turn with setter calls on a visible
    live session, a second turn with setter calls sends a second message,
    and that one holds the session id, under every key written in the
    second turn the last value written in it, and nothing else: what the
    first message carried is not sent again. *)
Theorem second_update_holds_only_new_writes ops this ps1 ps2 :
  visible_of this (run ops initial) = Some true →
  disposed_of this (run ops initial) = Some false →
  ps1 ≠ [] → ps2 ≠ [] →
  Forall (λ p, declares this (run ops initial) p = true) (ps1 ++ ps2) →
  ∃ m1 m2,
    updates_for this
      (proxy
         (run_timers
            (call_setters ps2 this
               (run_timers (call_setters ps1 this (run ops initial)))))) =
    updates_for this (proxy (run ops initial)) ++
      [PCreateOrUpdate m1; PCreateOrUpdate m2] ∧
    ∀ key,
      m2 !! key =
      match last_written key ps2 with
      | Some v => Some v
      | None => if decide (key = "id") then Some (VNum this) else None
      end.
Proof.
  pose proof (wf_reachable ops) as Hw. set (w := run ops initial) in *.
  unfold visible_of, disposed_of, declares.
  destruct (heap w !! this) as [s|] eqn:H; [|done]. simpl.
  intros [= Hv] [= Hd] Hne1 Hne2 Hps.
  apply Forall_app in Hps as [Hps1 Hps2].
  destruct (turn_of_setters this w s ps1 Hw H Hv Hd Hne1 Hps1)
    as (Hw1 & s1 & H1 & Ev1 & Ed1 & Ep1 & Eh1 & Ex1).
  destruct (turn_of_setters this _ s1 ps2 Hw1 H1 Ev1 Ed1 Hne2)
    as (_ & _ & _ & _ & _ & _ & _ & Ex2).
  { eapply Forall_impl; [done|]. intros p. simpl. by rewrite Eh1. }
  eexists _, _. rewrite Ex2, Ex1, <- app_assoc. split; [done|].
  intros key. rewrite Ep1, assign_last_written.
  destruct (last_written key ps2); [done|].
  rewrite lookup_singleton. by case_decide; case_decide; subst.
Qed.

Lemma second_update_holds_only_new_writes_witness :
  ∃ m1 m2,
    updates_for 1
      (proxy
         (run_timers
            (call_setters [SetBusy true] 1
               (run_timers
                  (call_setters [SetValue "a"] 1
                     (run [CreateQuickPick "e"; Show 1; Turn] initial)))))) =
    updates_for 1 (proxy (run [CreateQuickPick "e"; Show 1; Turn] initial)) ++
      [PCreateOrUpdate m1; PCreateOrUpdate m2] ∧
    m2 !! "value" = None.
Proof.
  destruct (second_update_holds_only_new_writes
              [CreateQuickPick "e"; Show 1; Turn] 1
              [SetValue "a"] [SetBusy true])
    as (m1 & m2 & E1 & E2).
  - vm_compute. reflexivity.
  - vm_compute. reflexivity.
  - discriminate.
  - discriminate.
  - repeat constructor.
  - exists m1, m2. split; [exact E1|]. by rewrite E2.
Defined.
